(** * Keyword-argument extraction: [rb_get_kwargs] of [src/main/c/cext/args.c]

    A shallow embedding of the C functions [rb_keyword_error_new],
    [rb_keyword_error], [unknown_keyword_error], [rb_tr_extract_keyword] and
    [rb_get_kwargs], followed by the properties of the keyword extractor.

    The C code reads and mutates two objects it does not own: the keyword hash
    and the [values] buffer.  Both live in a [memory] that every operation
    threads through; raising an exception leaves the memory as it was at the
    time of the raise (nothing is rolled back). *)

From stdpp Require Import base numbers list strings.

Open Scope Z_scope.

(** ** Host values *)

(** A [VALUE] is an opaque host word.  [Qundef] and [Qnil] are the two
    distinguished constants the code tests for, symbols carry their name
    ([rb_sym2str]), every other object is a handle. *)
Inductive VALUE : Type :=
  | Qundef
  | Qnil
  | Sym (name : string)
  | Obj (handle : Z).

#[global] Instance VALUE_eq_dec : EqDecision VALUE.
Proof. solve_decision. Defined.

#[global] Instance Sym_inj : Inj (=) (=) Sym.
Proof. by intros k k' [= ->]. Qed.

(** An [ID] is a symbol; the code uses [table[i]] directly as a hash key
    ([VALUE key = table[i]]), which is the injection [Sym]. *)
Abbreviation ID := string.

Definition is_symbol (v : VALUE) : bool :=
  match v with Sym _ => true | _ => false end.

(** ** The mapping (host hash)

    An insertion-ordered association list: [rb_hash_keys] enumerates the keys
    in insertion order, and the order shows in the error message. *)
Abbreviation Hash := (list (VALUE * VALUE)).

(** Modelled from the spec: [rb_hash_lookup2] is a host function that is not
    in the source file; the Mapping capability "lookup", returning the given
    default when the key has no entry. *)
Fixpoint hash_lookup2 (h : Hash) (key def : VALUE) : VALUE :=
  match h with
  | [] => def
  | (k, v) :: h' => if decide (k = key) then v else hash_lookup2 h' key def
  end.

(** Modelled from the spec: [rb_hash_delete] is a host function that is not
    in the source file; the Mapping capability "deletion-by-key", which keeps
    the order of the remaining entries. *)
Definition hash_delete (h : Hash) (key : VALUE) : Hash :=
  filter (λ p, p.1 ≠ key) h.

(** Modelled from the spec: [RHASH_SIZE] is a host macro that is not in the
    source file; the Mapping capability "size query". *)
Definition hash_size (h : Hash) : Z := Z.of_nat (length h).

(** Modelled from the spec: [rb_hash_keys] is a host function that is not in
    the source file; the Mapping capability "enumeration of remaining keys in
    insertion order". *)
Definition hash_keys (h : Hash) : list VALUE := h.*1.

(** ** Memory, exceptions and the monad of the C code *)

Record memory : Type := Mem {
  kw_hash : option Hash;            (* [None]: [keyword_hash] is [Qnil] *)
  kw_values : option (list VALUE)   (* [None]: [values] is [NULL] *)
}.

Inductive exception : Type :=
  | ArgError (message : string)     (* [rb_eArgError] with its message *)
  | TypeError (culprit : VALUE).    (* raised by [Check_Type] *)

(** What C leaves undefined, made observable, and the call of a hash function
    on [Qnil], whose effect is the host's and is not in the source file: the
    model stops there. *)
Inductive fault : Type :=
  | NullWrite (index : Z)           (* [values[i] = ...] with [values == NULL] *)
  | BufferBounds (index : Z)        (* [values[i]] outside the buffer *)
  | TableBounds (index : Z)         (* [table[i]] outside the table *)
  | NilReceiver.                    (* a hash function called on [Qnil] *)

Inductive outcome (A : Type) : Type :=
  | Ret (a : A)
  | Raise (e : exception)
  | Crash (f : fault).
Arguments Ret {A} a.
Arguments Raise {A} e.
Arguments Crash {A} f.

Definition M (A : Type) : Type := memory → outcome A * memory.

Definition ret {A} (a : A) : M A := λ m, (Ret a, m).

Definition bind {A B} (c : M A) (k : A → M B) : M B :=
  λ m, match c m with
       | (Ret a, m') => k a m'
       | (Raise e, m') => (Raise e, m')
       | (Crash f, m') => (Crash f, m')
       end.

Definition raise {A} (e : exception) : M A := λ m, (Raise e, m).
Definition crash {A} (f : fault) : M A := λ m, (Crash f, m).

Declare Scope kw_scope.
Delimit Scope kw_scope with kw.
Notation "'let*' x ':=' c 'in' k" := (bind c (λ x, k))
  (at level 10, x name, c at level 200, k at level 200) : kw_scope.
Open Scope kw_scope.

(** [for (int i = lo; i < hi; i++) acc = body(i, acc);] runs its body exactly
    [max 0 (hi - lo)] times. *)
Fixpoint for_loop {A} (count : nat) (i : Z) (body : Z → A → M A) (acc : A) : M A :=
  match count with
  | O => ret acc
  | S count' => let* acc' := body i acc in for_loop count' (i + 1) body acc'
  end.

Definition for_range {A} (lo hi : Z) (body : Z → A → M A) (acc : A) : M A :=
  for_loop (Z.to_nat (hi - lo)) lo body acc.

(** *** Accesses of the C code *)

(** [NIL_P(keyword_hash)] *)
Definition NIL_P_keyword_hash : M bool :=
  λ m, (Ret (bool_decide (kw_hash m = None)), m).

(** [rb_hash_lookup2(keyword_hash, key, def)] *)
Definition rb_hash_lookup2 (key def : VALUE) : M VALUE :=
  λ m, match kw_hash m with
       | Some h => (Ret (hash_lookup2 h key def), m)
       | None => (Crash NilReceiver, m)
       end.

(** [rb_hash_delete(keyword_hash, key)] *)
Definition rb_hash_delete (key : VALUE) : M unit :=
  λ m, match kw_hash m with
       | Some h => (Ret (), Mem (Some (hash_delete h key)) (kw_values m))
       | None => (Crash NilReceiver, m)
       end.

(** [RHASH_SIZE(keyword_hash)] *)
Definition RHASH_SIZE : M Z :=
  λ m, match kw_hash m with
       | Some h => (Ret (hash_size h), m)
       | None => (Crash NilReceiver, m)
       end.

(** [rb_hash_keys(keyword_hash)] *)
Definition rb_hash_keys : M (list VALUE) :=
  λ m, match kw_hash m with
       | Some h => (Ret (hash_keys h), m)
       | None => (Crash NilReceiver, m)
       end.

(** the test [if (values)] *)
Definition values_present : M bool :=
  λ m, (Ret (bool_decide (kw_values m ≠ None)), m).

(** [values[i] = v].  C does not check the index: a write outside the buffer
    is undefined, and the model stops there; the properties below are stated
    for a buffer that has a slot for every key of the schema. *)
Definition store_value (i : Z) (v : VALUE) : M unit :=
  λ m, match kw_values m with
       | None => (Crash (NullWrite i), m)
       | Some b =>
           if bool_decide (0 ≤ i < Z.of_nat (length b))
           then (Ret (), Mem (kw_hash m) (Some (<[Z.to_nat i := v]> b)))
           else (Crash (BufferBounds i), m)
       end.

(** [table[i]] *)
Definition table_at (table : list ID) (i : Z) : M ID :=
  if bool_decide (0 ≤ i)
  then match table !! Z.to_nat i with
       | Some key => ret key
       | None => crash (TableBounds i)
       end
  else crash (TableBounds i).

(** [(unsigned int) x] *)
Definition to_unsigned_int (x : Z) : Z := x mod 2 ^ 32.

(** ** The functions of [args.c] *)

(** The [while (1)] loop of [rb_keyword_error_new], entered with [len > 0]:
    append the name of [keys[i]], stop after the last key, otherwise append
    [", "] and go on. *)
Fixpoint append_keys (error_message : string) (keys : list VALUE) : M string :=
  match keys with
  | [] => ret error_message
  | k :: keys' =>
      match k with
      | Sym name =>
          let error_message := error_message +:+ name in
          match keys' with
          | [] => ret error_message
          | _ :: _ => append_keys (error_message +:+ ", ") keys'
          end
      | _ => raise (TypeError k)
      end
  end.

Definition rb_keyword_error_new (error : string) (keys : list VALUE) : M exception :=
  let len := Z.of_nat (length keys) in
  (* rb_sprintf("%s keyword%.*s", error, len > 1, "s") *)
  let error_message :=
    error +:+ " keyword" +:+ String.substring 0 (if bool_decide (len > 1) then 1 else 0) "s" in
  if bool_decide (len > 0) then
    let* error_message := append_keys (error_message +:+ ": ") keys in
    ret (ArgError error_message)
  else ret (ArgError error_message).

Definition rb_keyword_error {A} (error : string) (keys : list VALUE) : M A :=
  let* e := rb_keyword_error_new error keys in raise e.

Definition unknown_keyword_error {A} (table : list ID) (keywords : Z) : M A :=
  let* _ := for_range 0 keywords
              (λ i _, let* key := table_at table i in rb_hash_delete (Sym key)) () in
  let* keys := rb_hash_keys in
  rb_keyword_error "unknown" keys.

Definition rb_tr_extract_keyword (key : ID) : M VALUE :=
  let* val := rb_hash_lookup2 (Sym key) Qundef in
  let* has_values := values_present in
  let* _ := (if has_values then rb_hash_delete (Sym key) else ret ()) in
  ret val.

(** Body of the first loop of [rb_get_kwargs]. *)
Definition required_step (table : list ID) (n : Z) (extracted : Z) : M Z :=
  let* key := table_at table n in
  let* val := rb_tr_extract_keyword key in
  let* has_values := values_present in
  let* _ := (if has_values then store_value n val else ret ()) in
  if bool_decide (val = Qundef)
  then rb_keyword_error "missing" [Sym key]
  else ret (extracted + 1).

(** Body of the second loop of [rb_get_kwargs]. *)
Definition optional_step (table : list ID) (m : Z) (extracted : Z) : M Z :=
  let* key := table_at table m in
  let* val := rb_tr_extract_keyword key in
  let* has_values := values_present in
  let* _ := (if has_values then store_value m val else ret ()) in
  if bool_decide (val ≠ Qundef) then ret (extracted + 1) else ret extracted.

(** Lines 55-68: the loop over the required keys. *)
Definition required_pass (table : list ID) (required : Z) : M Z :=
  for_range 0 required (required_step table) 0.

(** Lines 70-80: the loop over the optional keys. *)
Definition optional_pass (table : list ID) (required optional extracted : Z) : M Z :=
  let* nil := NIL_P_keyword_hash in
  if negb (bool_decide (optional = 0)) && negb nil
  then for_range required (required + optional) (optional_step table) extracted
  else ret extracted.

(** Lines 82-86: the check for keys that the schema does not declare. *)
Definition rest_check (table : list ID) (required : Z) (rest : bool)
    (optional extracted : Z) : M unit :=
  let* nil := NIL_P_keyword_hash in
  if negb rest && negb nil then
    let* size := RHASH_SIZE in
    let* has_values := values_present in
    if bool_decide (size > to_unsigned_int (if has_values then 0 else extracted))
    then unknown_keyword_error table (required + optional)
    else ret ()
  else ret ().

(** Lines 88-90: the last loop. *)
Definition tail_fill (required optional extracted : Z) : M unit :=
  for_range extracted (required + optional) (λ i _, store_value i Qundef) ().

(** [rb_get_kwargs] after the decoding of [optional]: [rest] and [optional]
    are the locals of the C function from line 55 on. *)
Definition rb_get_kwargs_from (table : list ID) (required : Z) (rest : bool)
    (optional : Z) : M Z :=
  let* extracted := required_pass table required in
  let* extracted := optional_pass table required optional extracted in
  let* _ := rest_check table required rest optional extracted in
  let* _ := tail_fill required optional extracted in
  ret extracted.

(** [int rb_get_kwargs(keyword_hash, table, required, optional, values)];
    [keyword_hash] and [values] are the two objects of the memory.  The [int]
    arithmetic is on [Z]: no sum of the code leaves the range of [int] when the
    table has [required + optional] entries and this number is an [int]; the
    properties below are stated for such counts. *)
Definition rb_get_kwargs (table : list ID) (required optional : Z) : M Z :=
  if bool_decide (optional < 0)
  then rb_get_kwargs_from table required true (-1 - optional)
  else rb_get_kwargs_from table required false optional.

(** ** The vocabulary of the specification *)

(** A schema: the required prefix, the optional suffix and [restAllowed].  The
    C caller passes the two lists as one [table], the length of the first as
    [required], and the length of the second together with [restAllowed] as
    [optional]. *)
Definition optional_argument (restAllowed : bool) (O : nat) : Z :=
  if restAllowed then -1 - Z.of_nat O else Z.of_nat O.

(** The operation of the specification,
    [extract(mapping, requiredKeys, optionalKeys, restAllowed, outputBuffer)],
    as the call of [rb_get_kwargs] that performs it; the mapping and the
    output buffer are the two objects of the memory. *)
Definition extract (req opt : list ID) (restAllowed : bool) : M Z :=
  rb_get_kwargs (req ++ opt) (Z.of_nat (length req))
    (optional_argument restAllowed (length opt)).

(** The key is in the mapping. *)
Definition has_key (h : Hash) (k : ID) : Prop := Sym k ∈ hash_keys h.

#[global] Instance has_key_dec h k : Decision (has_key h k).
Proof. unfold has_key. apply _. Defined.

(** The key is declared by the schema. *)
Definition declared (table : list ID) (key : VALUE) : Prop :=
  key ∈ Sym <$> table.

#[global] Instance declared_dec table key : Decision (declared table key).
Proof. unfold declared. apply _. Defined.

(** The mapping without its schema-declared entries; the other entries keep
    their order. *)
Definition undeclared_entries (table : list ID) (h : Hash) : Hash :=
  filter (λ p, ¬ declared table p.1) h.

(** No entry of a mapping holds the Unspecified sentinel. *)
Definition proper_values (h : Hash) : Prop := Qundef ∉ h.*2.

(** The first required key, in schema order, that is not in the mapping, with
    its index. *)
Definition first_missing (h : Hash) (req : list ID) : option (nat * ID) :=
  list_find (λ k, ¬ has_key h k) req.

(** The names of the symbols of a key list. *)
Definition symbol_names (keys : list VALUE) : list ID :=
  omap (λ key, match key with Sym name => Some name | _ => None end) keys.

(** The largest [int]. *)
Definition INT_MAX : Z := 2 ^ 31 - 1.

(** The optional keys that are in the mapping. *)
Definition present_keys (h : Hash) (keys : list ID) : list ID :=
  filter (has_key h) keys.

(** The values of the keys, [Qundef] for a key without entry. *)
Definition values_of (h : Hash) (keys : list ID) : list VALUE :=
  (λ k, hash_lookup2 h (Sym k) Qundef) <$> keys.

(** The message as the specification words it:
    "<missing|unknown> keyword<s>: k1, k2, ...". *)
Fixpoint join_names (names : list ID) : string :=
  match names with
  | [] => ""
  | [k] => k
  | k :: names' => k +:+ ", " +:+ join_names names'
  end.

Definition keyword_message (kind : string) (names : list ID) : string :=
  kind +:+ " keyword"
       +:+ (if bool_decide (1 < length names)%nat then "s" else "")
       +:+ (match names with [] => "" | _ :: _ => ": " +:+ join_names names end).

(** The two faults of the extractor, with their key list. *)
Definition MissingRequiredKeyword (names : list ID) : exception :=
  ArgError (keyword_message "missing" names).
Definition UnknownKeyword (names : list ID) : exception :=
  ArgError (keyword_message "unknown" names).

(** The buffer [b] after the slots [i], [i+1], ... received the values [vs]. *)
Definition written (i : nat) (vs b : list VALUE) : list VALUE :=
  take i b ++ vs ++ drop (i + length vs) b.

(** The number of values that are not [Qundef]. *)
Definition specified (vs : list VALUE) : Z :=
  Z.of_nat (length (filter (λ v, v ≠ Qundef) vs)).

(** The mapping after the extractor went through [keys]: in extract mode
    ([values] present) their entries are deleted, in probe mode nothing is. *)
Definition consumed (vals : option (list VALUE)) (h : Hash) (keys : list ID) : Hash :=
  match vals with
  | Some _ => foldl hash_delete h (Sym <$> keys)
  | None => h
  end.

(** The buffer, when there is one, has at least [n] slots. *)
Definition buffer_fits (vals : option (list VALUE)) (n : nat) : Prop :=
  ∀ b, vals = Some b → (n ≤ length b)%nat.

(** The size the rest check compares with: [values ? 0 : extracted]. *)
Definition permitted_size (vals : option (list VALUE)) (extracted : Z) : Z :=
  match vals with Some _ => 0 | None => extracted end.

(** What a call may do to its two objects, between a memory [m] and a later
    memory [m']: the mapping stays null or stays a mapping, and a mapping only
    loses entries, the others keeping their order; the buffer stays null or
    keeps its length, and a slot holds what it held, [Qundef], or a value of
    the mapping of [m]. *)
Definition frame (m m' : memory) : Prop :=
  match kw_hash m, kw_hash m' with
  | None, None => True
  | Some h, Some h' => h' `sublist_of` h
  | _, _ => False
  end
  ∧ match kw_values m, kw_values m' with
    | None, None => True
    | Some b, Some b' =>
        length b' = length b
        ∧ ∀ i v, b' !! i = Some v →
            b !! i = Some v ∨ v = Qundef ∨ ∃ h, kw_hash m = Some h ∧ v ∈ h.*2
    | _, _ => False
    end.

(** Concrete data for the examples. *)
Definition name_extra : Hash := [(Sym "name", Obj 1); (Sym "extra", Obj 2)].
Definition name_only : Hash := [(Sym "name", Obj 1)].
Definition b_only : Hash := [(Sym "b", Obj 1)].

(** * Properties *)

(** ** The mapping *)

Lemma hash_lookup2_delete_ne h key key' def :
  key ≠ key' → hash_lookup2 (hash_delete h key') key def = hash_lookup2 h key def.
Proof.
  intros Hne. unfold hash_delete.
  induction h as [|[k v] h IH]; [done|].
  rewrite filter_cons. simpl. destruct (decide (k ≠ key')) as [Hk|Hk]; simpl.
  - by rewrite IH.
  - apply dec_stable in Hk. subst k.
    destruct (decide (key' = key)); [congruence|done].
Qed.

Lemma hash_lookup2_absent h key def :
  key ∉ hash_keys h → hash_lookup2 h key def = def.
Proof.
  unfold hash_keys. induction h as [|[k v] h IH]; [done|].
  rewrite fmap_cons, not_elem_of_cons. simpl. intros [Hne Hnin].
  destruct (decide (k = key)); [congruence|auto].
Qed.

Lemma hash_lookup2_present h key :
  proper_values h → key ∈ hash_keys h → hash_lookup2 h key Qundef ≠ Qundef.
Proof.
  unfold proper_values, hash_keys. induction h as [|[k v] h IH].
  - intros _ Hin. by apply elem_of_nil in Hin.
  - rewrite !fmap_cons, not_elem_of_cons, elem_of_cons. simpl.
    intros [Hv Hp] Hin. destruct (decide (k = key)); [congruence|].
    destruct Hin as [->|Hin]; [done|auto].
Qed.

Lemma hash_lookup2_found h key :
  hash_lookup2 h key Qundef ≠ Qundef → key ∈ hash_keys h.
Proof.
  intros Hf. destruct (decide (key ∈ hash_keys h)) as [|Hn]; [done|].
  by rewrite hash_lookup2_absent in Hf.
Qed.

Lemma hash_delete_absent h key : key ∉ hash_keys h → hash_delete h key = h.
Proof.
  unfold hash_delete, hash_keys. induction h as [|[k v] h IH]; [done|].
  rewrite fmap_cons, not_elem_of_cons. simpl. intros [Hne Hnin].
  rewrite filter_cons_True by (simpl; congruence). by rewrite IH.
Qed.

Lemma hash_delete_keys h (keys : list VALUE) :
  foldl hash_delete h keys = filter (λ p, p.1 ∉ keys) h.
Proof.
  revert h. induction keys as [|k keys IH]; intros h; simpl.
  - induction h as [|p h IHh]; [done|].
    rewrite filter_cons_True by apply not_elem_of_nil. by rewrite <- IHh.
  - rewrite IH. unfold hash_delete. rewrite list_filter_filter.
    apply list_filter_iff. intros p. rewrite not_elem_of_cons. tauto.
Qed.

Lemma hash_delete_table h (table : list ID) :
  foldl hash_delete h (Sym <$> table) = undeclared_entries table h.
Proof. apply hash_delete_keys. Qed.

(** ** The buffer *)

Lemma written_nil i b : written i [] b = b.
Proof. unfold written. simpl. rewrite Nat.add_0_r. apply take_drop. Qed.

Lemma written_cons i v vs b :
  (i < length b)%nat → written (S i) vs (<[i:=v]> b) = written i (v :: vs) b.
Proof.
  intros Hi. unfold written.
  rewrite (take_S_r _ _ v) by (by apply list_lookup_insert_eq).
  rewrite take_insert_ge by lia. rewrite drop_insert_lt by lia.
  rewrite <- app_assoc. simpl.
  by replace (i + S (length vs))%nat with (S (i + length vs)) by lia.
Qed.

Lemma written_app i vs ws b :
  (i ≤ length b)%nat →
  written (i + length vs) ws (written i vs b) = written i (vs ++ ws) b.
Proof.
  intros Hi. unfold written.
  assert (Hl : length (take i b ++ vs) = (i + length vs)%nat)
    by (rewrite length_app, length_take; lia).
  rewrite (app_assoc (take i b) vs).
  rewrite <- Hl at 1. rewrite take_app_length.
  replace (i + length vs + length ws)%nat
    with (length (take i b ++ vs) + (0 + length ws))%nat by lia.
  rewrite <- drop_drop, drop_app_length, drop_drop.
  rewrite <- !app_assoc, length_app. do 3 f_equal. f_equal. lia.
Qed.

Lemma length_written i vs b :
  (i + length vs ≤ length b)%nat → length (written i vs b) = length b.
Proof.
  intros Hi. unfold written.
  rewrite !length_app, length_take, length_drop. lia.
Qed.

Lemma lookup_written i vs b j :
  (i ≤ length b)%nat → (j < length vs)%nat →
  written i vs b !! (i + j)%nat = vs !! j.
Proof.
  intros Hi Hj. unfold written.
  rewrite lookup_app_r by (rewrite length_take; lia).
  rewrite length_take, Nat.min_l by lia.
  rewrite lookup_app_l by lia. f_equal. lia.
Qed.

Lemma lookup_written_lt i vs b j :
  (j < i)%nat → (i ≤ length b)%nat → written i vs b !! j = b !! j.
Proof.
  intros Hj Hi. unfold written.
  rewrite lookup_app_l by (rewrite length_take; lia).
  by apply lookup_take_lt.
Qed.

Lemma lookup_written_ge i vs b j :
  (i + length vs ≤ j)%nat → (i ≤ length b)%nat → written i vs b !! j = b !! j.
Proof.
  intros Hj Hi. unfold written.
  rewrite lookup_app_r by (rewrite length_take; lia).
  rewrite length_take, Nat.min_l by lia.
  rewrite lookup_app_r by lia. rewrite lookup_drop. f_equal. lia.
Qed.

Lemma specified_app vs ws : specified (vs ++ ws) = specified vs + specified ws.
Proof. unfold specified. rewrite filter_app, length_app. lia. Qed.

Lemma specified_all vs : Qundef ∉ vs → specified vs = Z.of_nat (length vs).
Proof.
  unfold specified. induction vs as [|v vs IH]; [done|].
  rewrite not_elem_of_cons. intros [Hv Hvs].
  rewrite filter_cons_True by done. simpl length. rewrite !Nat2Z.inj_succ.
  f_equal. auto.
Qed.

Lemma specified_bounds vs : 0 ≤ specified vs ≤ Z.of_nat (length vs).
Proof. unfold specified. pose proof (length_filter (λ v, v ≠ Qundef) vs). lia. Qed.

(** ** The error message *)

Lemma string_app_assoc (a b c : string) : (a +:+ b) +:+ c = a +:+ b +:+ c.
Proof.
  induction a as [|ch a IH]; [done|].
  change (String ch ((a +:+ b) +:+ c) = String ch (a +:+ b +:+ c)).
  by rewrite IH.
Qed.

Lemma append_keys_symbols acc name names m :
  append_keys acc (Sym <$> name :: names) m
  = (Ret (acc +:+ join_names (name :: names)), m).
Proof.
  revert acc name. induction names as [|name' names IH]; intros acc name.
  - done.
  - change (append_keys ((acc +:+ name) +:+ ", ") (Sym <$> name' :: names) m
            = (Ret (acc +:+ name +:+ ", " +:+ join_names (name' :: names)), m)).
    by rewrite IH, !string_app_assoc.
Qed.

Lemma rb_keyword_error_new_symbols error names m :
  rb_keyword_error_new error (Sym <$> names) m
  = (Ret (ArgError (keyword_message error names)), m).
Proof.
  unfold rb_keyword_error_new, keyword_message. rewrite length_fmap.
  destruct names as [|name names].
  - done.
  - rewrite (bool_decide_eq_true_2 (Z.of_nat (length (name :: names)) > 0))
      by (simpl length; lia).
    unfold bind. rewrite append_keys_symbols.
    assert (Hs : String.substring 0
              (if bool_decide (Z.of_nat (length (name :: names)) > 1)
               then 1%nat else 0%nat) "s"
            = if bool_decide (1 < length (name :: names))%nat then "s" else "").
    { destruct names as [|name' names]; [done|].
      rewrite bool_decide_eq_true_2 by (simpl length; lia).
      by rewrite bool_decide_eq_true_2 by (simpl length; lia). }
    rewrite Hs. unfold ret. by rewrite !string_app_assoc.
Qed.

Lemma rb_keyword_error_missing key m :
  rb_keyword_error (A:=Z) "missing" [Sym key] m
  = (Raise (MissingRequiredKeyword [key]), m).
Proof.
  unfold rb_keyword_error, bind.
  by rewrite (rb_keyword_error_new_symbols "missing" [key]).
Qed.

(** ** One iteration *)

Lemma table_at_lookup table (i : nat) key m :
  table !! i = Some key → table_at table (Z.of_nat i) m = (Ret key, m).
Proof.
  intros Hk. unfold table_at.
  rewrite bool_decide_eq_true_2 by lia. by rewrite Nat2Z.id, Hk.
Qed.

Lemma store_value_in h b (i : nat) v :
  (i < length b)%nat →
  store_value (Z.of_nat i) v (Mem h (Some b)) = (Ret (), Mem h (Some (<[i:=v]> b))).
Proof.
  intros Hi. unfold store_value. simpl.
  rewrite bool_decide_eq_true_2 by lia. by rewrite Nat2Z.id.
Qed.

Lemma required_step_extract table (i : nat) key h b acc :
  table !! i = Some key → (i < length b)%nat →
  required_step table (Z.of_nat i) acc (Mem (Some h) (Some b))
  = let v := hash_lookup2 h (Sym key) Qundef in
    let m' := Mem (Some (hash_delete h (Sym key))) (Some (<[i:=v]> b)) in
    if decide (v = Qundef)
    then (Raise (MissingRequiredKeyword [key]), m')
    else (Ret (acc + 1), m').
Proof.
  intros Hk Hi. unfold required_step, bind.
  rewrite (table_at_lookup _ _ key) by done. simpl.
  rewrite store_value_in by done.
  destruct (decide (hash_lookup2 h (Sym key) Qundef = Qundef)) as [Hv|Hv].
  - rewrite bool_decide_eq_true_2 by done. apply rb_keyword_error_missing.
  - by rewrite bool_decide_eq_false_2 by done.
Qed.

Lemma required_step_probe table (i : nat) key h acc :
  table !! i = Some key →
  required_step table (Z.of_nat i) acc (Mem (Some h) None)
  = if decide (hash_lookup2 h (Sym key) Qundef = Qundef)
    then (Raise (MissingRequiredKeyword [key]), Mem (Some h) None)
    else (Ret (acc + 1), Mem (Some h) None).
Proof.
  intros Hk. unfold required_step, bind.
  rewrite (table_at_lookup _ _ key) by done. simpl.
  destruct (decide (hash_lookup2 h (Sym key) Qundef = Qundef)) as [Hv|Hv].
  - rewrite bool_decide_eq_true_2 by done. apply rb_keyword_error_missing.
  - by rewrite bool_decide_eq_false_2 by done.
Qed.

Lemma optional_step_extract table (i : nat) key h b acc :
  table !! i = Some key → (i < length b)%nat →
  optional_step table (Z.of_nat i) acc (Mem (Some h) (Some b))
  = let v := hash_lookup2 h (Sym key) Qundef in
    (Ret (acc + specified [v]),
     Mem (Some (hash_delete h (Sym key))) (Some (<[i:=v]> b))).
Proof.
  intros Hk Hi. unfold optional_step, bind.
  rewrite (table_at_lookup _ _ key) by done. simpl.
  rewrite store_value_in by done. unfold specified.
  destruct (decide (hash_lookup2 h (Sym key) Qundef = Qundef)) as [Hv|Hv].
  - rewrite bool_decide_eq_false_2 by tauto.
    rewrite filter_cons_False by tauto. unfold ret. simpl. by rewrite Z.add_0_r.
  - rewrite bool_decide_eq_true_2 by done. by rewrite filter_cons_True by done.
Qed.

Lemma optional_step_probe table (i : nat) key h acc :
  table !! i = Some key →
  optional_step table (Z.of_nat i) acc (Mem (Some h) None)
  = (Ret (acc + specified [hash_lookup2 h (Sym key) Qundef]), Mem (Some h) None).
Proof.
  intros Hk. unfold optional_step, bind.
  rewrite (table_at_lookup _ _ key) by done. simpl. unfold specified.
  destruct (decide (hash_lookup2 h (Sym key) Qundef = Qundef)) as [Hv|Hv].
  - rewrite bool_decide_eq_false_2 by tauto.
    rewrite filter_cons_False by tauto. unfold ret. simpl. by rewrite Z.add_0_r.
  - rewrite bool_decide_eq_true_2 by done. by rewrite filter_cons_True by done.
Qed.

Lemma required_step_found table (i : nat) key h vals acc :
  table !! i = Some key → buffer_fits vals (S i) →
  hash_lookup2 h (Sym key) Qundef ≠ Qundef →
  required_step table (Z.of_nat i) acc (Mem (Some h) vals)
  = (Ret (acc + specified [hash_lookup2 h (Sym key) Qundef]),
     Mem (Some (consumed vals h [key]))
         (<[i:=hash_lookup2 h (Sym key) Qundef]> <$> vals)).
Proof.
  intros Hk Hb Hv.
  assert (Hs : specified [hash_lookup2 h (Sym key) Qundef] = 1).
  { rewrite specified_all; [done|].
    apply not_elem_of_cons. split; [done|apply not_elem_of_nil]. }
  rewrite Hs. destruct vals as [b|].
  - rewrite (required_step_extract _ _ key) by (auto; by apply (Hb b)).
    cbv zeta. by destruct (decide _).
  - rewrite (required_step_probe _ _ key) by done. by destruct (decide _).
Qed.

Lemma required_step_missing table (i : nat) key h vals acc :
  table !! i = Some key → buffer_fits vals (S i) →
  hash_lookup2 h (Sym key) Qundef = Qundef →
  required_step table (Z.of_nat i) acc (Mem (Some h) vals)
  = (Raise (MissingRequiredKeyword [key]),
     Mem (Some (consumed vals h [key])) (<[i:=Qundef]> <$> vals)).
Proof.
  intros Hk Hb Hv. destruct vals as [b|].
  - rewrite (required_step_extract _ _ key) by (auto; by apply (Hb b)).
    cbv zeta. rewrite Hv. by destruct (decide _).
  - rewrite (required_step_probe _ _ key) by done. by destruct (decide _).
Qed.

Lemma optional_step_run table (i : nat) key h vals acc :
  table !! i = Some key → buffer_fits vals (S i) →
  optional_step table (Z.of_nat i) acc (Mem (Some h) vals)
  = (Ret (acc + specified [hash_lookup2 h (Sym key) Qundef]),
     Mem (Some (consumed vals h [key]))
         (<[i:=hash_lookup2 h (Sym key) Qundef]> <$> vals)).
Proof.
  intros Hk Hb. destruct vals as [b|].
  - by rewrite (optional_step_extract _ _ key) by (auto; by apply (Hb b)).
  - by rewrite (optional_step_probe _ _ key) by done.
Qed.

(** ** The loops *)

Lemma for_loop_add {A} (n1 n2 : nat) i (body : Z → A → M A) acc m :
  for_loop (n1 + n2) i body acc m
  = bind (for_loop n1 i body acc)
         (λ acc', for_loop n2 (i + Z.of_nat n1) body acc') m.
Proof.
  revert i acc m. induction n1 as [|n1 IH]; intros i acc m.
  - unfold bind. simpl. change (Z.of_nat 0) with 0. rewrite Z.add_0_r. reflexivity.
  - simpl for_loop. unfold bind.
    destruct (body i acc m) as [[acc'|e|f] m']; [|done..].
    rewrite IH. unfold bind.
    destruct (for_loop n1 (i + 1) body acc' m') as [[a|e|f] m'']; [|done..].
    f_equal. lia.
Qed.

Lemma values_of_delete h key keys :
  key ∉ keys → values_of (hash_delete h (Sym key)) keys = values_of h keys.
Proof.
  intros Hk. unfold values_of. apply list_fmap_ext. intros i k Hi.
  apply hash_lookup2_delete_ne. intros [= ->].
  apply Hk. by eapply list_elem_of_lookup_2.
Qed.

Lemma consumed_fmap (f : list VALUE → list VALUE) vals h keys :
  consumed (f <$> vals) h keys = consumed vals h keys.
Proof. by destruct vals. Qed.

Lemma consumed_cons vals h key keys :
  consumed vals (consumed vals h [key]) keys = consumed vals h (key :: keys).
Proof. by destruct vals. Qed.

Lemma consumed_app vals h keys keys' :
  consumed vals (consumed vals h keys) keys' = consumed vals h (keys ++ keys').
Proof. destruct vals; [|done]. simpl. by rewrite fmap_app, foldl_app. Qed.

Lemma values_of_consumed_one vals h key keys :
  key ∉ keys → values_of (consumed vals h [key]) keys = values_of h keys.
Proof. destruct vals; [|done]. apply values_of_delete. Qed.

Lemma values_of_consumed vals h keys keys' :
  (∀ k, k ∈ keys → k ∉ keys') →
  values_of (consumed vals h keys) keys' = values_of h keys'.
Proof.
  revert h. induction keys as [|k keys IH]; intros h Hd.
  - by destruct vals.
  - rewrite <- consumed_cons, IH by (intros; apply Hd; by right).
    apply values_of_consumed_one, Hd. by left.
Qed.

Lemma buffer_fits_le vals n n' :
  (n' ≤ n)%nat → buffer_fits vals n → buffer_fits vals n'.
Proof. intros Hn Hb b Hv. specialize (Hb b Hv). lia. Qed.

Lemma buffer_fits_insert vals i v n :
  buffer_fits vals n → buffer_fits (<[i:=v]> <$> vals) n.
Proof.
  intros Hb b Hv. destruct vals as [b0|]; [|done].
  injection Hv as <-. rewrite length_insert. by apply Hb.
Qed.

(** A pass over the keys [ks] of the table, for a loop body that, on a value
    satisfying [P], counts it and goes on. *)
Section pass.
Variable table : list ID.
Variable body : Z → Z → M Z.
Variable P : VALUE → Prop.
Hypothesis body_step : ∀ (i : nat) key h vals acc,
  table !! i = Some key → buffer_fits vals (S i) →
  P (hash_lookup2 h (Sym key) Qundef) →
  body (Z.of_nat i) acc (Mem (Some h) vals)
  = (Ret (acc + specified [hash_lookup2 h (Sym key) Qundef]),
     Mem (Some (consumed vals h [key]))
         (<[i:=hash_lookup2 h (Sym key) Qundef]> <$> vals)).

Lemma pass_run ks : ∀ pre post h vals acc,
  table = pre ++ ks ++ post → NoDup ks →
  buffer_fits vals (length pre + length ks) →
  Forall P (values_of h ks) →
  for_loop (length ks) (Z.of_nat (length pre)) body acc (Mem (Some h) vals)
  = (Ret (acc + specified (values_of h ks)),
     Mem (Some (consumed vals h ks))
         (written (length pre) (values_of h ks) <$> vals)).
Proof.
  induction ks as [|k ks IH]; intros pre post h vals acc Ht Hnd Hb HP.
  - simpl. unfold ret, specified. simpl. rewrite Z.add_0_r. f_equal.
    destruct vals as [b|]; simpl; [|done]. by rewrite written_nil.
  - apply NoDup_cons in Hnd as [Hk Hnd].
    change (values_of h (k :: ks))
      with ([hash_lookup2 h (Sym k) Qundef] ++ values_of h ks) in *.
    apply Forall_app in HP as [HPk HP]. apply Forall_cons in HPk as [HPk _].
    simpl length in Hb.
    simpl for_loop. unfold bind.
    rewrite (body_step _ k); cycle 1.
    { subst table. by apply list_lookup_middle. }
    { eapply buffer_fits_le; [|done]. lia. }
    { done. }
    replace (Z.of_nat (length pre) + 1) with (Z.of_nat (length (pre ++ [k])))
      by (rewrite length_app; simpl; lia).
    rewrite (IH (pre ++ [k]) post); cycle 1.
    { by rewrite <- app_assoc. }
    { done. }
    { apply buffer_fits_insert. eapply buffer_fits_le; [|done].
      rewrite length_app. simpl. lia. }
    { by rewrite values_of_consumed_one. }
    rewrite consumed_fmap.
    rewrite values_of_consumed_one, consumed_cons, specified_app by done.
    f_equal; [f_equal; lia|]. f_equal.
    destruct vals as [b|]; [|done]. simpl. f_equal.
    rewrite length_app. simpl length. rewrite Nat.add_1_r.
    apply written_cons. specialize (Hb b eq_refl). lia.
Qed.
End pass.

Lemma written_singleton i v b :
  (i < length b)%nat → written i [v] b = <[i:=v]> b.
Proof.
  intros Hi. unfold written. rewrite insert_take_drop by done.
  simpl. by rewrite Nat.add_1_r.
Qed.

Lemma written_snoc i vs v b :
  (i + length vs < length b)%nat →
  <[(i + length vs)%nat:=v]> (written i vs b) = written i (vs ++ [v]) b.
Proof.
  intros Hi. rewrite <- written_app by lia.
  by rewrite written_singleton by (rewrite length_written; lia).
Qed.

Lemma length_values_of h keys : length (values_of h keys) = length keys.
Proof. apply length_fmap. Qed.

Lemma values_of_app h keys keys' :
  values_of h (keys ++ keys') = values_of h keys ++ values_of h keys'.
Proof. apply fmap_app. Qed.

Lemma required_pass_found req post h vals :
  NoDup req → buffer_fits vals (length req) → Qundef ∉ values_of h req →
  required_pass (req ++ post) (Z.of_nat (length req)) (Mem (Some h) vals)
  = (Ret (Z.of_nat (length req)),
     Mem (Some (consumed vals h req)) (written 0 (values_of h req) <$> vals)).
Proof.
  intros Hnd Hb Hv. unfold required_pass, for_range.
  rewrite Z.sub_0_r, Nat2Z.id.
  rewrite (pass_run (req ++ post) (required_step (req ++ post))
             (λ v, v ≠ Qundef) (required_step_found _) req [] post); try done.
  - by rewrite specified_all, length_values_of.
  - apply Forall_forall. intros v Hin ->. done.
Qed.

Lemma required_pass_missing pre k post h vals required :
  NoDup pre → buffer_fits vals (S (length pre)) →
  Qundef ∉ values_of h pre → hash_lookup2 h (Sym k) Qundef = Qundef →
  Z.of_nat (length pre) < required →
  required_pass (pre ++ k :: post) required (Mem (Some h) vals)
  = (Raise (MissingRequiredKeyword [k]),
     Mem (Some (consumed vals h (pre ++ [k])))
         (written 0 (values_of h pre ++ [Qundef]) <$> vals)).
Proof.
  intros Hnd Hb Hv Hk Hr. unfold required_pass, for_range.
  assert (Hkp : k ∉ pre).
  { intros Hin. apply Hv. rewrite <- Hk.
    apply list_elem_of_fmap. by exists k. }
  assert (Hk' : hash_lookup2 (consumed vals h pre) (Sym k) Qundef = Qundef).
  { assert (He : values_of (consumed vals h pre) [k] = values_of h [k]).
    { apply values_of_consumed. by intros k' Hin ->%list_elem_of_singleton. }
    injection He as ->. done. }
  replace (Z.to_nat (required - 0))
    with (length pre + S (Z.to_nat (required - 0 - Z.of_nat (S (length pre)))))%nat
    by lia.
  rewrite for_loop_add. unfold bind at 1.
  rewrite (pass_run (pre ++ k :: post) (required_step (pre ++ k :: post))
             (λ v, v ≠ Qundef) (required_step_found _) pre [] (k :: post));
    [| done | done | eapply buffer_fits_le; [|done]; simpl; lia
     | apply Forall_forall; by intros v Hin -> ].
  simpl for_loop. unfold bind.
  change (0 + Z.of_nat (length pre)) with (Z.of_nat (length pre)).
  rewrite (required_step_missing _ _ k); [| by apply list_lookup_middle | | done].
  - rewrite consumed_fmap, consumed_app. f_equal. f_equal.
    destruct vals as [b|]; [|done]. simpl. f_equal.
    rewrite <- written_snoc
      by (specialize (Hb b eq_refl); rewrite length_values_of; simpl; lia).
    by rewrite length_values_of.
  - intros b Hvb. destruct vals as [b0|]; [|done]. injection Hvb as <-.
    specialize (Hb b0 eq_refl).
    rewrite length_written by (rewrite length_values_of; simpl; lia). done.
Qed.

Lemma optional_pass_run req opt h vals acc :
  NoDup opt → buffer_fits vals (length req + length opt) →
  optional_pass (req ++ opt) (Z.of_nat (length req)) (Z.of_nat (length opt)) acc
    (Mem (Some h) vals)
  = (Ret (acc + specified (values_of h opt)),
     Mem (Some (consumed vals h opt))
         (written (length req) (values_of h opt) <$> vals)).
Proof.
  intros Hnd Hb. unfold optional_pass, bind, NIL_P_keyword_hash. simpl.
  destruct opt as [|k opt].
  - simpl. unfold ret, specified. simpl. rewrite Z.add_0_r. f_equal.
    destruct vals as [b|]; simpl; [|done]. by rewrite written_nil.
  - rewrite (bool_decide_eq_false_2 (Z.of_nat (length (k :: opt)) = 0))
      by (simpl length; lia).
    simpl negb. simpl andb. unfold for_range.
    replace (Z.to_nat (Z.of_nat (length req) + Z.of_nat (length (k :: opt))
                       - Z.of_nat (length req)))
      with (length (k :: opt)) by lia.
    apply (pass_run (req ++ k :: opt) (optional_step (req ++ k :: opt))
             (λ _, True) (λ i key h vals acc Hk Hf _,
                            optional_step_run _ i key h vals acc Hk Hf)
             (k :: opt) req []); try done.
    + by rewrite app_nil_r.
    + by apply Forall_forall.
Qed.

Lemma fill_loop_extract count : ∀ (i : nat) oh b,
  (i + count ≤ length b)%nat →
  for_loop count (Z.of_nat i) (λ i _, store_value i Qundef) () (Mem oh (Some b))
  = (Ret (), Mem oh (Some (written i (replicate count Qundef) b))).
Proof.
  induction count as [|count IH]; intros i oh b Hi.
  - simpl. unfold ret. by rewrite written_nil.
  - simpl for_loop. unfold bind. rewrite store_value_in by lia.
    replace (Z.of_nat i + 1) with (Z.of_nat (S i)) by lia.
    rewrite IH by (rewrite length_insert; lia).
    by rewrite written_cons by lia.
Qed.

Lemma tail_fill_extract (R O extracted : nat) oh b :
  (extracted ≤ R + O)%nat → (R + O ≤ length b)%nat →
  tail_fill (Z.of_nat R) (Z.of_nat O) (Z.of_nat extracted) (Mem oh (Some b))
  = (Ret (),
     Mem oh (Some (written extracted (replicate (R + O - extracted) Qundef) b))).
Proof.
  intros He Hb. unfold tail_fill, for_range.
  replace (Z.to_nat (Z.of_nat R + Z.of_nat O - Z.of_nat extracted))
    with (R + O - extracted)%nat by lia.
  apply fill_loop_extract. lia.
Qed.

Lemma tail_fill_probe_full required optional extracted oh :
  required + optional ≤ extracted →
  tail_fill required optional extracted (Mem oh None) = (Ret (), Mem oh None).
Proof.
  intros He. unfold tail_fill, for_range.
  by replace (Z.to_nat (required + optional - extracted)) with 0%nat by lia.
Qed.

Lemma tail_fill_probe_short required optional extracted oh :
  extracted < required + optional →
  tail_fill required optional extracted (Mem oh None)
  = (Crash (NullWrite extracted), Mem oh None).
Proof.
  intros He. unfold tail_fill, for_range.
  destruct (Z.to_nat (required + optional - extracted)) as [|n] eqn:Hn; [lia|].
  done.
Qed.

Lemma delete_loop table ks : ∀ pre post h vals,
  table = pre ++ ks ++ post →
  for_loop (length ks) (Z.of_nat (length pre))
    (λ i _, let* key := table_at table i in rb_hash_delete (Sym key)) ()
    (Mem (Some h) vals)
  = (Ret (), Mem (Some (foldl hash_delete h (Sym <$> ks))) vals).
Proof.
  induction ks as [|k ks IH]; intros pre post h vals Ht; [done|].
  simpl for_loop. unfold bind at 1 2.
  rewrite (table_at_lookup _ _ k) by (subst table; by apply list_lookup_middle).
  unfold rb_hash_delete at 1. simpl kw_hash. simpl kw_values.
  replace (Z.of_nat (length pre) + 1) with (Z.of_nat (length (pre ++ [k])))
    by (rewrite length_app; simpl; lia).
  by rewrite (IH (pre ++ [k]) post) by (by rewrite <- app_assoc).
Qed.

Lemma unknown_keyword_error_run {A} table h vals :
  unknown_keyword_error (A:=A) table (Z.of_nat (length table)) (Mem (Some h) vals)
  = rb_keyword_error "unknown" (hash_keys (undeclared_entries table h))
      (Mem (Some (undeclared_entries table h)) vals).
Proof.
  unfold unknown_keyword_error, for_range. unfold bind at 1.
  rewrite Z.sub_0_r, Nat2Z.id.
  rewrite (delete_loop table table [] []) by (by rewrite app_nil_r).
  by rewrite hash_delete_table.
Qed.

Lemma undeclared_entries_idemp table h :
  undeclared_entries table (undeclared_entries table h) = undeclared_entries table h.
Proof.
  unfold undeclared_entries. rewrite list_filter_filter.
  apply list_filter_iff. tauto.
Qed.

Lemma rest_check_allowed table required optional extracted m :
  rest_check table required true optional extracted m = (Ret (), m).
Proof. done. Qed.

Lemma rest_check_nil table required rest optional extracted vals :
  rest_check table required rest optional extracted (Mem None vals)
  = (Ret (), Mem None vals).
Proof. unfold rest_check, bind. simpl. by rewrite andb_false_r. Qed.

Lemma rest_check_run table required optional extracted h vals :
  required + optional = Z.of_nat (length table) →
  rest_check table required false optional extracted (Mem (Some h) vals)
  = if bool_decide (hash_size h > to_unsigned_int (permitted_size vals extracted))
    then rb_keyword_error "unknown" (hash_keys (undeclared_entries table h))
           (Mem (Some (undeclared_entries table h)) vals)
    else (Ret (), Mem (Some h) vals).
Proof.
  intros Hl. unfold rest_check, bind. simpl.
  assert (Hv : (if bool_decide (vals ≠ None) then 0 else extracted)
               = permitted_size vals extracted) by (by destruct vals).
  rewrite Hv, Hl.
  destruct (bool_decide (hash_size h > _)); [|done].
  apply unknown_keyword_error_run.
Qed.

(** ** [rb_keyword_error] never returns *)

Lemma append_keys_outcome keys : ∀ acc m,
  (∃ s, append_keys acc keys m = (Ret s, m))
  ∨ (∃ e, append_keys acc keys m = (Raise e, m)).
Proof.
  induction keys as [|k keys IH]; intros acc m; [left; by eexists|].
  destruct k; try (right; by eexists).
  destruct keys as [|k' keys]; [left; by eexists|].
  apply IH.
Qed.

Lemma rb_keyword_error_raises error keys m :
  ∃ e, ∀ A, rb_keyword_error (A:=A) error keys m = (Raise e, m).
Proof.
  unfold rb_keyword_error, rb_keyword_error_new, bind.
  destruct (bool_decide (Z.of_nat (length keys) > 0)); [|by eexists].
  destruct (append_keys_outcome keys
              ((error +:+ " keyword" +:+
                String.substring 0
                  (if bool_decide (Z.of_nat (length keys) > 1) then 1%nat else 0%nat)
                  "s") +:+ ": ") m)
    as [[s Hs]|[e He]].
  - rewrite Hs. by eexists.
  - rewrite He. by eexists.
Qed.

Lemma rb_keyword_error_bind {A B} error keys (k : A → M B) m :
  bind (rb_keyword_error error keys) k m = rb_keyword_error error keys m.
Proof.
  destruct (rb_keyword_error_raises error keys m) as [e He].
  unfold bind. by rewrite !He.
Qed.

Lemma rb_keyword_error_unknown {A} names m :
  rb_keyword_error (A:=A) "unknown" (Sym <$> names) m
  = (Raise (UnknownKeyword names), m).
Proof.
  unfold rb_keyword_error, bind.
  by rewrite (rb_keyword_error_new_symbols "unknown" names).
Qed.

(** ** The whole call, once every required key is found *)

Lemma rb_get_kwargs_decode table required restAllowed O :
  rb_get_kwargs table required (optional_argument restAllowed O)
  = rb_get_kwargs_from table required restAllowed (Z.of_nat O).
Proof.
  unfold rb_get_kwargs, optional_argument. destruct restAllowed.
  - rewrite bool_decide_eq_true_2 by lia. f_equal. lia.
  - by rewrite bool_decide_eq_false_2 by lia.
Qed.

Lemma undeclared_consumed vals table h :
  undeclared_entries table (consumed vals h table) = undeclared_entries table h.
Proof.
  destruct vals; [|done]. simpl.
  by rewrite hash_delete_table, undeclared_entries_idemp.
Qed.

Lemma permitted_size_fmap (f : list VALUE → list VALUE) vals extracted :
  permitted_size (f <$> vals) extracted = permitted_size vals extracted.
Proof. by destruct vals. Qed.

Lemma written_fmap_app i vs ws vals :
  buffer_fits vals i →
  written (i + length vs) ws <$> (written i vs <$> vals)
  = written i (vs ++ ws) <$> vals.
Proof.
  intros Hb. destruct vals as [b|]; [|done]. simpl.
  by rewrite written_app by (by apply Hb).
Qed.

Lemma rb_get_kwargs_from_found req opt rest h vals :
  NoDup (req ++ opt) → buffer_fits vals (length req + length opt) →
  Qundef ∉ values_of h req →
  rb_get_kwargs_from (req ++ opt) (Z.of_nat (length req)) rest
    (Z.of_nat (length opt)) (Mem (Some h) vals)
  = let extracted := Z.of_nat (length req) + specified (values_of h opt) in
    let h1 := consumed vals h (req ++ opt) in
    let vals1 := written 0 (values_of h (req ++ opt)) <$> vals in
    if negb rest
       && bool_decide (hash_size h1 > to_unsigned_int (permitted_size vals extracted))
    then rb_keyword_error "unknown"
           (hash_keys (undeclared_entries (req ++ opt) h))
           (Mem (Some (undeclared_entries (req ++ opt) h)) vals1)
    else bind (tail_fill (Z.of_nat (length req)) (Z.of_nat (length opt)) extracted)
              (λ _, ret extracted) (Mem (Some h1) vals1).
Proof.
  intros Hnd Hb Hv. apply NoDup_app in Hnd as (Hnr & Hdisj & Hno).
  unfold rb_get_kwargs_from. unfold bind at 1.
  rewrite required_pass_found; [| done | eapply buffer_fits_le; [|done]; lia | done].
  unfold bind at 1.
  rewrite optional_pass_run;
    [| done | intros b Hvb; destruct vals as [b0|]; [|done]; injection Hvb as <-;
              rewrite length_written
                by (specialize (Hb b0 eq_refl); rewrite length_values_of; lia);
              by apply Hb ].
  rewrite consumed_fmap, consumed_app, values_of_consumed by done.
  assert (Hw : written (length req) (values_of h opt)
                 <$> (written 0 (values_of h req) <$> vals)
               = written 0 (values_of h (req ++ opt)) <$> vals).
  { rewrite values_of_app, <- written_fmap_app
      by (eapply buffer_fits_le; [|done]; lia).
    by rewrite length_values_of. }
  rewrite Hw.
  cbv zeta. unfold bind at 1. destruct rest.
  - by rewrite rest_check_allowed.
  - rewrite rest_check_run by (rewrite length_app; lia).
    rewrite permitted_size_fmap, undeclared_consumed. simpl negb. simpl andb.
    destruct (bool_decide (hash_size _ > _)); [|done].
    apply (rb_keyword_error_bind (A:=unit) (B:=Z)).
Qed.

(** ** A required key is missing *)

Lemma values_of_present h keys :
  proper_values h → (∀ k, k ∈ keys → has_key h k) → Qundef ∉ values_of h keys.
Proof.
  intros Hp Hk Hin. apply list_elem_of_fmap in Hin as (k & Hq & Hin).
  symmetry in Hq. revert Hq. apply hash_lookup2_present; [done|by apply Hk].
Qed.

Lemma first_missing_split h req n k :
  first_missing h req = Some (n, k) →
  req = take n req ++ k :: drop (S n) req
  ∧ length (take n req) = n
  ∧ (∀ k', k' ∈ take n req → has_key h k')
  ∧ ¬ has_key h k.
Proof.
  intros (Hk & Hm & Hbefore)%list_find_Some. repeat split.
  - by rewrite take_drop_middle.
  - apply lookup_lt_Some in Hk. rewrite length_take. lia.
  - intros k' (j & Hj & Hlt)%elem_of_take. apply dec_stable. eauto.
  - done.
Qed.

Lemma rb_get_kwargs_missing req opt restAllowed h vals n k :
  first_missing h req = Some (n, k) →
  NoDup req → proper_values h →
  buffer_fits vals (length req + length opt) →
  rb_get_kwargs (req ++ opt) (Z.of_nat (length req))
    (optional_argument restAllowed (length opt)) (Mem (Some h) vals)
  = (Raise (MissingRequiredKeyword [k]),
     Mem (Some (consumed vals h (take n req)))
         (written 0 (values_of h (take n req) ++ [Qundef]) <$> vals)).
Proof.
  intros Hf Hnd Hp Hb.
  pose proof (first_missing_split _ _ _ _ Hf) as (Hreq & Hn & Hpre & Hk).
  assert (Hlen : (n < length req)%nat).
  { apply list_find_Some in Hf as [Hf _]. by apply lookup_lt_Some in Hf. }
  rewrite rb_get_kwargs_decode. unfold rb_get_kwargs_from. unfold bind at 1.
  rewrite Hreq at 1. rewrite <- app_assoc. simpl app.
  rewrite required_pass_missing.
  - rewrite <- consumed_app. unfold consumed at 1.
    destruct vals as [b|]; [|done]. simpl foldl.
    rewrite hash_delete_absent; [done|].
    simpl. rewrite hash_delete_keys. unfold hash_keys.
    intros (p & Hq & Hin)%list_elem_of_fmap.
    apply list_elem_of_filter in Hin as [_ Hin]. apply Hk.
    unfold has_key, hash_keys. rewrite Hq. by apply list_elem_of_fmap_2.
  - rewrite Hreq in Hnd. by apply NoDup_app in Hnd as [? _].
  - eapply buffer_fits_le; [|done]. lia.
  - by apply values_of_present.
  - by apply hash_lookup2_absent.
  - lia.
Qed.

Lemma consumed_extract_keys b h keys key :
  key ∈ keys → ¬ has_key (consumed (Some b) h keys) key.
Proof.
  intros Hin. unfold has_key, hash_keys. simpl. rewrite hash_delete_keys.
  intros (p & Hq & Hp)%list_elem_of_fmap.
  apply list_elem_of_filter in Hp as [Hp _]. apply Hp.
  rewrite <- Hq. by apply list_elem_of_fmap_2.
Qed.

(** X16: a non-null mapping that misses a required key makes the call raise
    MissingRequiredKeyword with exactly one key, the first missing required
    key in schema order, however many required keys are missing; neither the
    optional keys nor the rest check are reached: the mapping has lost, in
    extract mode, the required keys before the missing one and nothing else,
    and is untouched in probe mode. *)
Theorem first_missing_required_keyword req opt restAllowed h vals n k :
  first_missing h req = Some (n, k) →
  NoDup req → proper_values h →
  buffer_fits vals (length req + length opt) →
  (extract req opt restAllowed (Mem (Some h) vals)).1
    = Raise (MissingRequiredKeyword [k])
  ∧ kw_hash (extract req opt restAllowed (Mem (Some h) vals)).2
    = Some (consumed vals h (take n req))
  ∧ req !! n = Some k ∧ ¬ has_key h k
  ∧ (∀ j k', (j < n)%nat → req !! j = Some k' → has_key h k').
Proof.
  intros Hf Hnd Hp Hb. unfold extract.
  rewrite (rb_get_kwargs_missing _ _ _ _ _ n k) by done.
  apply list_find_Some in Hf as (Hk & Hm & Hbefore).
  repeat split; try done.
  intros j k' Hj Hk'. apply dec_stable. eauto.
Qed.

Lemma first_missing_required_keyword_witness :
  (extract ["name"; "id"] [] false
     (Mem (Some [(Sym "id", Obj 1)]) (Some [Qnil; Qnil]))).1
    = Raise (MissingRequiredKeyword ["name"])
  ∧ kw_hash (extract ["name"; "id"] [] false
               (Mem (Some [(Sym "id", Obj 1)]) (Some [Qnil; Qnil]))).2
    = Some (consumed (Some [Qnil; Qnil]) [(Sym "id", Obj 1)]
              (take 0 ["name"; "id"]))
  ∧ ["name"; "id"] !! 0%nat = Some "name"
  ∧ ¬ has_key [(Sym "id", Obj 1)] "name"
  ∧ (∀ j k', (j < 0)%nat → ["name"; "id"] !! j = Some k'
             → has_key [(Sym "id", Obj 1)] k').
Proof.
  apply (first_missing_required_keyword ["name"; "id"] [] false
           [(Sym "id", Obj 1)] (Some [Qnil; Qnil]) 0 "name").
  - reflexivity.
  - compute_done.
  - unfold proper_values. compute_done.
  - intros b [= <-]. simpl. lia.
Defined.

(** C9: in extract mode, when the required keys before index [n] are in the
    mapping and the one at index [n] is the first that is not, then at the
    raise of MissingRequiredKeyword the slots before [n] hold the values of
    those keys, which are no longer in the mapping, slot [n] is Unspecified
    and the slots after [n] are as they were. *)
Theorem buffer_at_missing_required_keyword req opt restAllowed h b n k :
  first_missing h req = Some (n, k) →
  NoDup req → proper_values h →
  length b = (length req + length opt)%nat →
  ∃ h' b',
    extract req opt restAllowed (Mem (Some h) (Some b))
    = (Raise (MissingRequiredKeyword [k]), Mem (Some h') (Some b'))
    ∧ (∀ i key, (i < n)%nat → req !! i = Some key →
         b' !! i = Some (hash_lookup2 h (Sym key) Qundef)
         ∧ hash_lookup2 h (Sym key) Qundef ≠ Qundef
         ∧ ¬ has_key h' key)
    ∧ b' !! n = Some Qundef
    ∧ (∀ j, (n < j)%nat → b' !! j = b !! j).
Proof.
  intros Hf Hnd Hp Hb. unfold extract.
  rewrite (rb_get_kwargs_missing _ _ _ _ _ n k);
    [| done | done | done | intros b0 [= <-]; lia].
  pose proof (first_missing_split _ _ _ _ Hf) as (Hreq & Hn & Hpre & Hk).
  assert (Hlen : (n < length req)%nat).
  { apply list_find_Some in Hf as [Hf _]. by apply lookup_lt_Some in Hf. }
  eexists _, _. split; [reflexivity|].
  split; [intros i key Hi Hkey; split; [|split]|split].
  - etrans; [apply (lookup_written 0 _ b i);
             rewrite ?length_app, ?length_values_of, ?Hn; simpl; lia|].
    rewrite lookup_app_l by (rewrite length_values_of; lia).
    unfold values_of. rewrite list_lookup_fmap, lookup_take_lt by done.
    by rewrite Hkey.
  - apply hash_lookup2_present; [done|]. apply Hpre.
    apply elem_of_take. eauto.
  - apply consumed_extract_keys. apply elem_of_take. eauto.
  - etrans; [apply (lookup_written 0 _ b n);
             rewrite ?length_app, ?length_values_of, ?Hn; simpl; lia|].
    rewrite lookup_app_r by (rewrite length_values_of; lia).
    by rewrite length_values_of, Hn, Nat.sub_diag.
  - intros j Hj. apply lookup_written_ge; [|lia].
    rewrite length_app, length_values_of, Hn. simpl. lia.
Qed.

Lemma buffer_at_missing_required_keyword_witness :
  ∃ h' b',
    extract ["a"; "b"; "c"] ["d"] false
      (Mem (Some [(Sym "a", Obj 7); (Sym "c", Obj 9)])
           (Some [Qnil; Qnil; Qnil; Qnil]))
    = (Raise (MissingRequiredKeyword ["b"]), Mem (Some h') (Some b'))
    ∧ (∀ i key, (i < 1)%nat → ["a"; "b"; "c"] !! i = Some key →
         b' !! i
         = Some (hash_lookup2 [(Sym "a", Obj 7); (Sym "c", Obj 9)] (Sym key) Qundef)
         ∧ hash_lookup2 [(Sym "a", Obj 7); (Sym "c", Obj 9)] (Sym key) Qundef
           ≠ Qundef
         ∧ ¬ has_key h' key)
    ∧ b' !! 1%nat = Some Qundef
    ∧ (∀ j, (1 < j)%nat → b' !! j = [Qnil; Qnil; Qnil; Qnil] !! j).
Proof.
  apply (buffer_at_missing_required_keyword ["a"; "b"; "c"] ["d"] false
           [(Sym "a", Obj 7); (Sym "c", Obj 9)] [Qnil; Qnil; Qnil; Qnil] 1 "b").
  - reflexivity.
  - compute_done.
  - unfold proper_values. compute_done.
  - reflexivity.
Defined.

(** ** The null mapping *)

Lemma optional_pass_nil table required optional extracted vals :
  optional_pass table required optional extracted (Mem None vals)
  = (Ret extracted, Mem None vals).
Proof. unfold optional_pass, bind. simpl. by rewrite andb_false_r. Qed.

(** C10: with no required key, a null mapping and an output buffer, the call
    returns 0 without raising and leaves every one of the O slots Unspecified,
    whatever O and restAllowed are. *)
Theorem null_mapping_without_required opt restAllowed b :
  length b = length opt →
  extract [] opt restAllowed (Mem None (Some b))
  = (Ret 0, Mem None (Some (replicate (length opt) Qundef)))
  ∧ optional_pass ([] ++ opt) 0 (Z.of_nat (length opt)) 0 (Mem None (Some b))
    = (Ret 0, Mem None (Some b))
  ∧ rest_check ([] ++ opt) 0 restAllowed (Z.of_nat (length opt)) 0
      (Mem None (Some b))
    = (Ret (), Mem None (Some b)).
Proof.
  intros Hb. split; [|split; [apply optional_pass_nil|apply rest_check_nil]].
  unfold extract. rewrite rb_get_kwargs_decode.
  unfold rb_get_kwargs_from, bind. simpl length.
  change (required_pass ([] ++ opt) (Z.of_nat 0) (Mem None (Some b)))
    with (Ret 0, Mem None (Some b)).
  cbv beta iota. rewrite optional_pass_nil.
  cbv beta iota. rewrite rest_check_nil.
  pose proof (tail_fill_extract 0 (length opt) 0 None b) as Hfill.
  change (Z.of_nat 0) with 0 in *. rewrite Hfill by lia.
  unfold ret, written. simpl. rewrite Nat.sub_0_r, length_replicate.
  by rewrite drop_ge, app_nil_r by lia.
Qed.

Lemma null_mapping_without_required_witness :
  extract [] ["a"; "b"] true (Mem None (Some [Qnil; Obj 3]))
  = (Ret 0, Mem None (Some (replicate (length ["a"; "b"]) Qundef)))
  ∧ optional_pass ([] ++ ["a"; "b"]) 0 (Z.of_nat (length ["a"; "b"])) 0
      (Mem None (Some [Qnil; Obj 3]))
    = (Ret 0, Mem None (Some [Qnil; Obj 3]))
  ∧ rest_check ([] ++ ["a"; "b"]) 0 true (Z.of_nat (length ["a"; "b"])) 0
      (Mem None (Some [Qnil; Obj 3]))
    = (Ret (), Mem None (Some [Qnil; Obj 3])).
Proof.
  apply (null_mapping_without_required ["a"; "b"] true [Qnil; Obj 3]).
  reflexivity.
Defined.

(** ** The encoding of [restAllowed] in [optional] *)

(** C7, as stated, fails: a negative [optional] would stand for as many
    optional keys as its magnitude.  With [optional = -1] and the key a in the
    mapping, the call takes no optional key: it returns 0 and leaves the
    mapping and the slot alone, where one optional key would be extracted. *)
Lemma negative_optional_magnitude_fails :
  rb_get_kwargs ["a"] 0 (-1) (Mem (Some [(Sym "a", Obj 1)]) (Some [Qnil]))
  = (Ret 0, Mem (Some [(Sym "a", Obj 1)]) (Some [Qnil]))
  ∧ rb_get_kwargs_from ["a"] 0 true (Z.abs (-1))
      (Mem (Some [(Sym "a", Obj 1)]) (Some [Qnil]))
    = (Ret 1, Mem (Some []) (Some [Obj 1]))
  ∧ ¬ (∀ table required optional m,
         optional < 0 →
         rb_get_kwargs table required optional m
         = rb_get_kwargs_from table required true (Z.abs optional) m).
Proof.
  split; [reflexivity|]. split; [reflexivity|]. intros H.
  specialize (H ["a"] 0 (-1) (Mem (Some [(Sym "a", Obj 1)]) (Some [Qnil]))).
  specialize (H ltac:(lia)). vm_compute in H. discriminate H.
Qed.

(** A negative [optional] is decoded by line 52. *)
Lemma rb_get_kwargs_negative table required optional m :
  optional < 0 →
  rb_get_kwargs table required optional m
  = rb_get_kwargs_from table required true (Z.abs optional - 1) m.
Proof.
  intros Hneg. unfold rb_get_kwargs.
  rewrite bool_decide_eq_true_2 by done. f_equal. lia.
Qed.

(** ** The message of a fault *)

Example message_one_key :
  rb_keyword_error_new "missing" [Sym "a"] (Mem None None)
  = (Ret (ArgError "missing keyword: a"), Mem None None).
Proof. reflexivity. Qed.

Example message_two_keys :
  rb_keyword_error_new "unknown" [Sym "a"; Sym "b"] (Mem None None)
  = (Ret (ArgError "unknown keywords: a, b"), Mem None None).
Proof. reflexivity. Qed.

Example message_no_key :
  rb_keyword_error_new "unknown" [] (Mem None None)
  = (Ret (ArgError "unknown keyword"), Mem None None).
Proof. reflexivity. Qed.

(** ** Every required key is in the mapping *)

Lemma specified_values_of h keys :
  proper_values h →
  specified (values_of h keys) = Z.of_nat (length (present_keys h keys)).
Proof.
  intros Hp. unfold present_keys. induction keys as [|k keys IH]; [done|].
  change (values_of h (k :: keys))
    with ([hash_lookup2 h (Sym k) Qundef] ++ values_of h keys).
  rewrite specified_app, IH. unfold specified.
  destruct (decide (has_key h k)) as [Hk|Hk].
  - rewrite (filter_cons_True (has_key h)) by done.
    rewrite filter_cons_True by (by apply hash_lookup2_present).
    simpl length. lia.
  - rewrite (filter_cons_False (has_key h)) by done.
    rewrite filter_cons_False; [simpl; lia|].
    intros Hv. apply Hv. by apply hash_lookup2_absent.
Qed.

Lemma undeclared_entries_nil table h :
  (∀ key, key ∈ hash_keys h → declared table key) →
  undeclared_entries table h = [].
Proof.
  intros Hd. unfold undeclared_entries.
  destruct (filter _ h) as [|p l] eqn:Hf; [done|].
  assert (Hp : p ∈ filter (λ p, ¬ declared table p.1) h)
    by (rewrite Hf; by left).
  apply list_elem_of_filter in Hp as [Hn Hp]. destruct Hn.
  apply Hd. by apply list_elem_of_fmap_2.
Qed.

Lemma undeclared_entries_keys table h key :
  key ∈ hash_keys (undeclared_entries table h)
  ↔ key ∈ hash_keys h ∧ ¬ declared table key.
Proof.
  unfold hash_keys, undeclared_entries. split.
  - intros (p & -> & Hp)%list_elem_of_fmap.
    apply list_elem_of_filter in Hp as [Hn Hp]. split; [|done].
    by apply list_elem_of_fmap_2.
  - intros [(p & -> & Hp)%list_elem_of_fmap Hn].
    apply list_elem_of_fmap_2. by apply list_elem_of_filter.
Qed.

(** The number of schema keys found: what the call returns. *)
Lemma extract_mode_run req opt restAllowed h b :
  NoDup (req ++ opt) → proper_values h →
  (∀ k, k ∈ req → has_key h k) →
  length b = (length req + length opt)%nat →
  (restAllowed = false → ∀ key, key ∈ hash_keys h → declared (req ++ opt) key) →
  let e := (length req + length (present_keys h opt))%nat in
  extract req opt restAllowed (Mem (Some h) (Some b))
  = (Ret (Z.of_nat e),
     Mem (Some (undeclared_entries (req ++ opt) h))
         (Some (written e (replicate (length req + length opt - e) Qundef)
                  (written 0 (values_of h (req ++ opt)) b)))).
Proof.
  intros Hnd Hp Hreq Hb Hrest e. unfold extract.
  rewrite rb_get_kwargs_decode.
  rewrite rb_get_kwargs_from_found;
    [| done | intros b0 [= <-]; lia | by apply values_of_present].
  cbv zeta. rewrite specified_values_of by done.
  unfold permitted_size, to_unsigned_int, consumed.
  rewrite hash_delete_table.
  assert (Hno : negb restAllowed
                && bool_decide (hash_size (undeclared_entries (req ++ opt) h)
                                > 0 mod 2 ^ 32) = false).
  { destruct restAllowed; [done|]. simpl.
    rewrite undeclared_entries_nil by auto. done. }
  rewrite Hno. unfold bind.
  assert (He : (e ≤ length req + length opt)%nat).
  { unfold e, present_keys. pose proof (length_filter (has_key h) opt). lia. }
  replace (Z.of_nat (length req) + Z.of_nat (length (present_keys h opt)))
    with (Z.of_nat e) by lia.
  simpl fmap.
  assert (Hlw : length (written 0 (values_of h (req ++ opt)) b) = length b).
  { apply length_written. rewrite length_values_of, length_app. lia. }
  by rewrite tail_fill_extract by lia.
Qed.

(** The slot of an optional key after the call: its value when the slot is
    below the number of keys found, Unspecified otherwise. *)
Lemma extract_mode_optional_slot req opt h b i k :
  length b = (length req + length opt)%nat →
  opt !! i = Some k →
  let e := (length req + length (present_keys h opt))%nat in
  written e (replicate (length req + length opt - e) Qundef)
    (written 0 (values_of h (req ++ opt)) b) !! (length req + i)%nat
  = Some (if decide (length req + i < e)%nat
          then hash_lookup2 h (Sym k) Qundef else Qundef).
Proof.
  intros Hb Hi e.
  assert (Hio : (i < length opt)%nat) by (by apply lookup_lt_Some in Hi).
  assert (He : (e ≤ length req + length opt)%nat).
  { unfold e, present_keys. pose proof (length_filter (has_key h) opt). lia. }
  assert (Hlw : length (written 0 (values_of h (req ++ opt)) b) = length b).
  { apply length_written. rewrite length_values_of, length_app. lia. }
  destruct (decide (length req + i < e)%nat) as [Hlt|Hge].
  - rewrite lookup_written_lt by lia.
    etrans; [apply (lookup_written 0 _ b (length req + i));
             rewrite ?length_values_of, ?length_app; lia|].
    rewrite values_of_app, lookup_app_r by (rewrite length_values_of; lia).
    rewrite length_values_of.
    replace (length req + i - length req)%nat with i by lia.
    unfold values_of. by rewrite list_lookup_fmap, Hi.
  - replace (length req + i)%nat with (e + (length req + i - e))%nat by lia.
    rewrite lookup_written by (rewrite ?length_replicate; lia).
    apply lookup_replicate_2. lia.
Qed.

(** X15: in extract mode, a mapping that holds every required key, any of the
    optional keys and, unless rest keys are allowed, nothing else: the call
    returns the number of schema keys found, the slot of every absent optional
    key is Unspecified, and the mapping keeps exactly its entries that the
    schema does not declare. *)
Lemma extract_mode_success req opt restAllowed h b :
  NoDup (req ++ opt) → proper_values h →
  (∀ k, k ∈ req → has_key h k) →
  length b = (length req + length opt)%nat →
  (restAllowed = false → ∀ key, key ∈ hash_keys h → declared (req ++ opt) key) →
  ∃ b',
    extract req opt restAllowed (Mem (Some h) (Some b))
    = (Ret (Z.of_nat (length req) + Z.of_nat (length (present_keys h opt))),
       Mem (Some (undeclared_entries (req ++ opt) h)) (Some b'))
    ∧ length b' = length b
    ∧ (∀ i k, opt !! i = Some k → ¬ has_key h k →
         b' !! (length req + i)%nat = Some Qundef).
Proof.
  intros Hnd Hp Hreq Hb Hrest.
  rewrite extract_mode_run by done. cbv zeta.
  assert (He : (length req + length (present_keys h opt)
                ≤ length req + length opt)%nat).
  { unfold present_keys. pose proof (length_filter (has_key h) opt). lia. }
  eexists. split; [f_equal; f_equal; lia|]. split.
  - assert (Hlw : length (written 0 (values_of h (req ++ opt)) b) = length b).
    { apply length_written. rewrite length_values_of, length_app. lia. }
    rewrite length_written; [done|]. rewrite length_replicate. lia.
  - intros i k Hi Hk. rewrite (extract_mode_optional_slot _ _ _ _ _ k) by done.
    rewrite hash_lookup2_absent by done. by destruct (decide _).
Qed.

Lemma extract_mode_success_witness :
  ∃ b',
    extract ["name"] ["age"; "city"] true
      (Mem (Some [(Sym "city", Obj 3); (Sym "zip", Obj 4); (Sym "name", Obj 1)])
           (Some [Qnil; Qnil; Qnil]))
    = (Ret (Z.of_nat (length ["name"])
            + Z.of_nat (length (present_keys
                 [(Sym "city", Obj 3); (Sym "zip", Obj 4); (Sym "name", Obj 1)]
                 ["age"; "city"]))),
       Mem (Some (undeclared_entries (["name"] ++ ["age"; "city"])
                    [(Sym "city", Obj 3); (Sym "zip", Obj 4); (Sym "name", Obj 1)]))
           (Some b'))
    ∧ length b' = length [Qnil; Qnil; Qnil]
    ∧ (∀ i k, ["age"; "city"] !! i = Some k →
         ¬ has_key [(Sym "city", Obj 3); (Sym "zip", Obj 4); (Sym "name", Obj 1)] k →
         b' !! (length ["name"] + i)%nat = Some Qundef).
Proof.
  apply (extract_mode_success ["name"] ["age"; "city"] true
           [(Sym "city", Obj 3); (Sym "zip", Obj 4); (Sym "name", Obj 1)]
           [Qnil; Qnil; Qnil]).
  - compute_done.
  - unfold proper_values. compute_done.
  - intros k ->%list_elem_of_singleton. compute_done.
  - reflexivity.
  - discriminate.
Defined.

(** ** The failures of the last loop *)

(** C1 fails in probe mode: with the required key in the mapping and the
    optional key absent, a schema and a mapping for which the call must return
    1, the last loop writes through the null buffer and the call does not
    return.  ([extract_mode_success] is the property in extract mode.) *)
Theorem probe_mode_absent_optional_key_stops :
  extract ["name"] ["age"] false (Mem (Some name_only) None)
  = (Crash (NullWrite 1), Mem (Some name_only) None)
  ∧ has_key name_only "name" ∧ ¬ has_key name_only "age"
  ∧ hash_keys name_only = [Sym "name"].
Proof. split; [reflexivity|]. split; [compute_done|]. split; compute_done. Qed.

(** C4 fails: the optional key b is in the mapping with value 1, the call
    returns 1, and the slot of b, written in the optional pass, is overwritten
    with Unspecified by the last loop, which starts at index [extracted]. *)
Theorem tail_fill_overwrites_optional_value :
  extract [] ["a"; "b"] false (Mem (Some b_only) (Some [Qnil; Qnil]))
  = (Ret 1, Mem (Some []) (Some [Qundef; Qundef]))
  ∧ hash_lookup2 b_only (Sym "b") Qundef = Obj 1
  ∧ optional_pass ["a"; "b"] 0 2 0 (Mem (Some b_only) (Some [Qnil; Qnil]))
    = (Ret 1, Mem (Some []) (Some [Qundef; Obj 1])).
Proof. split; [reflexivity|]. split; reflexivity. Qed.

(** C6 fails: in probe mode, with one optional key and an empty mapping, the
    last loop runs from 0 to 1 and writes [values[0]] through the null
    buffer. *)
Theorem probe_mode_tail_fill_null_write :
  extract [] ["age"] false (Mem (Some []) None)
  = (Crash (NullWrite 0), Mem (Some []) None)
  ∧ tail_fill 0 1 0 (Mem (Some []) None)
    = (Crash (NullWrite 0), Mem (Some []) None).
Proof. split; reflexivity. Qed.

(** ** Counting the entries of the mapping *)

Lemma hash_keys_undeclared table h :
  hash_keys (undeclared_entries table h)
  = filter (λ key, ¬ declared table key) (hash_keys h).
Proof.
  unfold hash_keys, undeclared_entries.
  induction h as [|[k v] h IH]; [done|].
  rewrite fmap_cons. simpl.
  destruct (decide (declared table k)) as [Hd|Hd].
  - rewrite !filter_cons_False by (simpl; tauto). done.
  - rewrite !filter_cons_True by done. by rewrite fmap_cons, IH.
Qed.

Lemma present_keys_all h keys :
  (∀ k, k ∈ keys → has_key h k) → present_keys h keys = keys.
Proof.
  unfold present_keys. induction keys as [|k keys IH]; [done|]. intros Hk.
  rewrite filter_cons_True by (apply Hk; by left).
  f_equal. apply IH. intros k' Hin. apply Hk. by right.
Qed.

Lemma present_keys_declared table h :
  NoDup table → NoDup (hash_keys h) →
  length (present_keys h table) = length (filter (declared table) (hash_keys h)).
Proof.
  intros Ht Hh. rewrite <- (length_fmap Sym (present_keys h table)).
  apply Permutation_length, NoDup_Permutation.
  - apply (NoDup_fmap_2 Sym). by apply NoDup_filter.
  - by apply NoDup_filter.
  - intros key. unfold present_keys, declared, has_key.
    rewrite list_elem_of_fmap, list_elem_of_filter. split.
    + intros (k & -> & Hin). apply list_elem_of_filter in Hin as [Hk Hin].
      split; [|done]. by apply list_elem_of_fmap_2.
    + intros [(k & -> & Hin)%list_elem_of_fmap Hk].
      exists k. split; [done|]. by apply list_elem_of_filter.
Qed.

Lemma hash_size_split table h :
  NoDup table → NoDup (hash_keys h) →
  hash_size h
  = Z.of_nat (length (present_keys h table))
    + Z.of_nat (length (undeclared_entries table h)).
Proof.
  intros Ht Hh. unfold hash_size.
  rewrite present_keys_declared by done.
  rewrite <- (length_fmap fst (undeclared_entries table h)).
  change (fst <$> undeclared_entries table h)
    with (hash_keys (undeclared_entries table h)).
  rewrite hash_keys_undeclared, <- Nat2Z.inj_add, <- length_app.
  rewrite (Permutation_length (filter_app_complement (declared table) (hash_keys h))).
  unfold hash_keys. by rewrite length_fmap.
Qed.

Lemma to_unsigned_int_small x : 0 ≤ x ≤ INT_MAX → to_unsigned_int x = x.
Proof.
  unfold to_unsigned_int, INT_MAX. intros Hx. apply Z.mod_small. lia.
Qed.

(** The comparison of the rest check is the test for an undeclared entry. *)
Lemma size_check req opt h vals :
  NoDup (req ++ opt) → NoDup (hash_keys h) → proper_values h →
  (∀ k, k ∈ req → has_key h k) →
  Z.of_nat (length req + length opt) ≤ INT_MAX →
  hash_size (consumed vals h (req ++ opt))
    > to_unsigned_int
        (permitted_size vals
           (Z.of_nat (length req) + specified (values_of h opt)))
  ↔ undeclared_entries (req ++ opt) h ≠ [].
Proof.
  intros Hnd Hh Hp Hreq Hint. destruct vals as [b|]; simpl.
  - rewrite hash_delete_table. unfold to_unsigned_int, hash_size.
    rewrite Z.mod_0_l by done.
    destruct (undeclared_entries (req ++ opt) h); simpl; [|split; [done|lia]].
    split; [lia|done].
  - pose proof (specified_bounds (values_of h opt)) as Hs.
    rewrite length_values_of in Hs.
    rewrite to_unsigned_int_small by lia.
    rewrite (hash_size_split (req ++ opt)) by done.
    rewrite specified_values_of by done.
    unfold present_keys at 1. rewrite filter_app, length_app.
    fold (present_keys h req). fold (present_keys h opt).
    rewrite (present_keys_all h req) by done.
    destruct (undeclared_entries (req ++ opt) h); simpl; [|split; [done|lia]].
    split; [lia|done].
Qed.

Lemma fill_loop_no_raise count : ∀ i m e,
  (for_loop count i (λ i _, store_value i Qundef) () m).1 ≠ Raise e.
Proof.
  induction count as [|count IH]; intros i m e; [done|].
  simpl for_loop. unfold bind.
  destruct (store_value i Qundef m) as [[[]|e'|f] m'] eqn:Hs.
  - apply IH.
  - unfold store_value in Hs.
    destruct (kw_values m); [destruct (bool_decide _)|]; discriminate Hs.
  - done.
Qed.

Lemma tail_fill_returns required optional extracted m e :
  (bind (tail_fill required optional extracted) (λ _, ret extracted) m).1 ≠ Raise e.
Proof.
  unfold bind, tail_fill, for_range.
  pose proof (fill_loop_no_raise (Z.to_nat (required + optional - extracted))
                extracted m e) as Hn.
  destruct (for_loop _ _ _ _ m) as [[[]|e'|f] m']; [done| |done].
  simpl in *. congruence.
Qed.

Lemma symbol_names_symbols keys :
  (∀ key, key ∈ keys → is_symbol key) → Sym <$> symbol_names keys = keys.
Proof.
  unfold symbol_names. induction keys as [|key keys IH]; [done|]. intros Hs.
  assert (Hk : is_symbol key) by (apply Hs; by left).
  destruct key; try done. simpl. f_equal.
  apply IH. intros key Hin. apply Hs. by right.
Qed.

(** ** Keys that the schema does not declare *)

(** C3: for a mapping that holds every required key, the call raises
    UnknownKeyword if and only if rest keys are not allowed and the mapping
    has a key outside the schema; the key list of the fault is then the list
    of those keys, which are the keys left in the mapping once every
    schema-declared key is deleted; in extract mode and in probe mode
    alike. *)
Theorem unknown_keyword_fault_iff req opt restAllowed h vals :
  NoDup (req ++ opt) → NoDup (hash_keys h) → proper_values h →
  (∀ key, key ∈ hash_keys h → is_symbol key) →
  (∀ k, k ∈ req → has_key h k) →
  buffer_fits vals (length req + length opt) →
  Z.of_nat (length req + length opt) ≤ INT_MAX →
  ((∃ names, (extract req opt restAllowed (Mem (Some h) vals)).1
             = Raise (UnknownKeyword names))
   ↔ restAllowed = false
     ∧ ∃ key, key ∈ hash_keys h ∧ ¬ declared (req ++ opt) key)
  ∧ (restAllowed = false →
     (∃ key, key ∈ hash_keys h ∧ ¬ declared (req ++ opt) key) →
     ∃ names,
       (extract req opt restAllowed (Mem (Some h) vals)).1
       = Raise (UnknownKeyword names)
       ∧ Sym <$> names = filter (λ key, ¬ declared (req ++ opt) key) (hash_keys h)
       ∧ kw_hash (extract req opt restAllowed (Mem (Some h) vals)).2
         = Some (undeclared_entries (req ++ opt) h)
       ∧ hash_keys (undeclared_entries (req ++ opt) h) = Sym <$> names).
Proof.
  intros Hnd Hh Hp Hsym Hreq Hb Hint. unfold extract.
  rewrite rb_get_kwargs_decode.
  rewrite rb_get_kwargs_from_found by (try done; by apply values_of_present).
  cbv zeta.
  pose proof (size_check req opt h vals Hnd Hh Hp Hreq Hint) as Hsize.
  assert (Hex : undeclared_entries (req ++ opt) h ≠ []
                ↔ ∃ key, key ∈ hash_keys h ∧ ¬ declared (req ++ opt) key).
  { split.
    - intros Hne. destruct (undeclared_entries (req ++ opt) h) as [|p l] eqn:Hu;
        [done|].
      exists p.1. apply undeclared_entries_keys. rewrite Hu. by left.
    - intros (key & Hkey) Hnil. apply undeclared_entries_keys in Hkey.
      rewrite Hnil in Hkey. by apply elem_of_nil in Hkey. }
  assert (Hnames : Sym <$> symbol_names (hash_keys (undeclared_entries (req ++ opt) h))
                   = hash_keys (undeclared_entries (req ++ opt) h)).
  { apply symbol_names_symbols. intros key Hkey.
    apply undeclared_entries_keys in Hkey as [Hkey _]. auto. }
  destruct (decide (restAllowed = false
                    ∧ undeclared_entries (req ++ opt) h ≠ [])) as [[-> Hne]|Hno].
  - rewrite bool_decide_eq_true_2 by (by apply Hsize). simpl negb. simpl andb.
    rewrite <- Hnames, rb_keyword_error_unknown. simpl.
    split.
    + split; [intros _; split; [done|by apply Hex]|intros _; by eexists].
    + intros _ _. eexists. split; [done|]. rewrite <- hash_keys_undeclared.
      by rewrite !Hnames.
  - assert (Hb' : negb restAllowed
                  && bool_decide
                       (hash_size (consumed vals h (req ++ opt))
                        > to_unsigned_int
                            (permitted_size vals
                               (Z.of_nat (length req)
                                + specified (values_of h opt)))) = false).
    { destruct restAllowed; [done|]. simpl.
      apply bool_decide_eq_false_2. rewrite Hsize. intros Hne. by apply Hno. }
    rewrite Hb'. split.
    + split.
      * intros [names Hr]. by apply tail_fill_returns in Hr.
      * intros [-> Hk]. destruct Hno. split; [done|by apply Hex].
    + intros -> Hk. destruct Hno. split; [done|by apply Hex].
Qed.

Lemma unknown_keyword_fault_iff_witness :
  ((∃ names, (extract ["name"] [] false (Mem (Some name_extra) None)).1
             = Raise (UnknownKeyword names))
   ↔ false = false
     ∧ ∃ key, key ∈ hash_keys name_extra ∧ ¬ declared (["name"] ++ []) key)
  ∧ (false = false →
     (∃ key, key ∈ hash_keys name_extra ∧ ¬ declared (["name"] ++ []) key) →
     ∃ names,
       (extract ["name"] [] false (Mem (Some name_extra) None)).1
       = Raise (UnknownKeyword names)
       ∧ Sym <$> names
         = filter (λ key, ¬ declared (["name"] ++ []) key) (hash_keys name_extra)
       ∧ kw_hash (extract ["name"] [] false (Mem (Some name_extra) None)).2
         = Some (undeclared_entries (["name"] ++ []) name_extra)
       ∧ hash_keys (undeclared_entries (["name"] ++ []) name_extra)
         = Sym <$> names).
Proof.
  apply (unknown_keyword_fault_iff ["name"] [] false name_extra None).
  - compute_done.
  - compute_done.
  - unfold proper_values. compute_done.
  - intros key Hkey. apply elem_of_cons in Hkey as [->|Hkey]; [done|].
    apply list_elem_of_singleton in Hkey as ->. done.
  - intros k ->%list_elem_of_singleton. compute_done.
  - intros b [=].
  - unfold INT_MAX. simpl. lia.
Defined.

(** ** Probe mode and the mapping *)

Lemma first_undef_split h req :
  Qundef ∈ values_of h req →
  ∃ pre k post,
    req = pre ++ k :: post
    ∧ (Qundef ∉ values_of h pre)
    ∧ hash_lookup2 h (Sym k) Qundef = Qundef.
Proof.
  induction req as [|k req IH]; [by intros ?%elem_of_nil|].
  change (values_of h (k :: req))
    with (hash_lookup2 h (Sym k) Qundef :: values_of h req).
  intros Hin.
  destruct (decide (hash_lookup2 h (Sym k) Qundef = Qundef)) as [Hk|Hk].
  - exists [], k, req. repeat split; [apply not_elem_of_nil|done].
  - apply elem_of_cons in Hin as [Hin|Hin]; [congruence|].
    destruct (IH Hin) as (pre & k' & post & -> & Hpre & Hk').
    exists (k :: pre), k', post. repeat split; [|done].
    change (values_of h (k :: pre))
      with (hash_lookup2 h (Sym k) Qundef :: values_of h pre).
    apply not_elem_of_cons. split; [congruence|done].
Qed.

Lemma rb_get_kwargs_from_undef pre k post opt rest optional h vals :
  NoDup pre → buffer_fits vals (S (length pre)) →
  Qundef ∉ values_of h pre → hash_lookup2 h (Sym k) Qundef = Qundef →
  rb_get_kwargs_from ((pre ++ k :: post) ++ opt)
    (Z.of_nat (length (pre ++ k :: post))) rest optional (Mem (Some h) vals)
  = (Raise (MissingRequiredKeyword [k]),
     Mem (Some (consumed vals h (pre ++ [k])))
         (written 0 (values_of h pre ++ [Qundef]) <$> vals)).
Proof.
  intros Hnd Hb Hv Hk. unfold rb_get_kwargs_from. unfold bind at 1.
  rewrite <- app_assoc. simpl app.
  rewrite required_pass_missing; try done.
  rewrite length_app. simpl. lia.
Qed.

Lemma missing_not_unknown names names' :
  MissingRequiredKeyword names ≠ UnknownKeyword names'.
Proof. unfold MissingRequiredKeyword, UnknownKeyword, keyword_message. by intros [=]. Qed.

Lemma append_keys_prefix keys : ∀ acc m s m',
  append_keys acc keys m = (Ret s, m') → ∃ t, s = acc +:+ t.
Proof.
  induction keys as [|key keys IH]; intros acc m s m' Hr.
  - injection Hr as <- _. exists "". induction acc as [|c acc IHa]; [done|].
    change (String c acc = String c (acc +:+ "")). by rewrite <- IHa.
  - destruct key; try discriminate Hr. simpl in Hr.
    destruct keys as [|key' keys].
    + injection Hr as <- _. by eexists.
    + apply IH in Hr as [t ->]. rewrite !string_app_assoc. by eexists.
Qed.

Lemma rb_keyword_error_unknown_kind {A} keys m e m' names :
  rb_keyword_error (A:=A) "unknown" keys m = (Raise e, m') →
  e ≠ MissingRequiredKeyword names.
Proof.
  unfold rb_keyword_error, rb_keyword_error_new, bind.
  destruct (bool_decide (Z.of_nat (length keys) > 0)).
  - destruct (append_keys _ keys m) as [[s|e'|f] m''] eqn:Ha; [| |done].
    + apply append_keys_prefix in Ha as [t ->].
      unfold ret, raise. cbv beta iota. intros [= <- _]. by intros [=].
    + intros [= <- _]. clear -Ha. intros ->.
      revert Ha. generalize ("unknown" +:+ " keyword" +:+ String.substring 0
        (if bool_decide (Z.of_nat (length keys) > 1) then 1%nat else 0%nat) "s").
      intros s. generalize (s +:+ ": "). clear s.
      induction keys as [|key keys IH]; intros acc Ha; [done|].
      destruct key; try (by injection Ha).
      simpl in Ha. destruct keys; [done|]. by apply IH in Ha.
  - unfold ret, raise. cbv beta iota. intros [= <- _]. by intros [=].
Qed.

(** C5, as stated, fails: in probe mode, a mapping with a key outside the
    schema, rest keys not allowed: the call raises UnknownKeyword and the
    mapping has lost its schema-declared key. *)
Lemma probe_mode_unknown_mutates :
  extract ["name"] [] false (Mem (Some name_extra) None)
  = (Raise (UnknownKeyword ["extra"]), Mem (Some [(Sym "extra", Obj 2)]) None)
  ∧ kw_hash (extract ["name"] [] false (Mem (Some name_extra) None)).2
    ≠ Some name_extra.
Proof. split; [reflexivity|]. vm_compute. discriminate. Qed.

(** C5, amended: in probe mode the mapping is as it was when the call returns
    or raises MissingRequiredKeyword; when the call raises UnknownKeyword,
    every schema-declared key has been deleted from the mapping and its other
    entries are in place. *)
Theorem probe_mode_mapping req opt restAllowed h :
  NoDup (req ++ opt) →
  (∀ n, (extract req opt restAllowed (Mem (Some h) None)).1 = Ret n →
     (extract req opt restAllowed (Mem (Some h) None)).2 = Mem (Some h) None)
  ∧ (∀ names,
       (extract req opt restAllowed (Mem (Some h) None)).1
       = Raise (MissingRequiredKeyword names) →
       (extract req opt restAllowed (Mem (Some h) None)).2 = Mem (Some h) None)
  ∧ (∀ names,
       (extract req opt restAllowed (Mem (Some h) None)).1
       = Raise (UnknownKeyword names) →
       (extract req opt restAllowed (Mem (Some h) None)).2
       = Mem (Some (undeclared_entries (req ++ opt) h)) None).
Proof.
  intros Hnd. unfold extract. rewrite rb_get_kwargs_decode.
  destruct (decide (Qundef ∈ values_of h req)) as [Hu|Hu].
  - destruct (first_undef_split _ _ Hu) as (pre & k & post & -> & Hpre & Hk).
    rewrite rb_get_kwargs_from_undef; [| | done..].
    + simpl. split; [done|]. split; [done|].
      intros names Hm. exfalso.
      apply (missing_not_unknown [k] names). by inversion Hm.
    + rewrite <- !app_assoc in Hnd. by apply NoDup_app in Hnd as [? _].
  - rewrite rb_get_kwargs_from_found by done. cbv zeta.
    destruct (negb restAllowed && bool_decide _).
    + destruct (rb_keyword_error_raises "unknown"
                  (hash_keys (undeclared_entries (req ++ opt) h))
                  (Mem (Some (undeclared_entries (req ++ opt) h))
                       (written 0 (values_of h (req ++ opt)) <$> None)))
        as [e He].
      rewrite (He Z). simpl. split; [done|]. split; [|done].
      intros names [= ->]. specialize (He Z).
      by apply rb_keyword_error_unknown_kind with (names:=names) in He.
    + simpl. unfold bind.
      destruct (decide (Z.of_nat (length req) + specified (values_of h opt)
                        < Z.of_nat (length req) + Z.of_nat (length opt)))
        as [Hlt|Hge].
      * rewrite tail_fill_probe_short by done. done.
      * rewrite tail_fill_probe_full by lia. done.
Qed.

Lemma probe_mode_mapping_witness :
  (∀ n, (extract ["name"] ["age"] false (Mem (Some name_extra) None)).1 = Ret n →
     (extract ["name"] ["age"] false (Mem (Some name_extra) None)).2
     = Mem (Some name_extra) None)
  ∧ (∀ names,
       (extract ["name"] ["age"] false (Mem (Some name_extra) None)).1
       = Raise (MissingRequiredKeyword names) →
       (extract ["name"] ["age"] false (Mem (Some name_extra) None)).2
       = Mem (Some name_extra) None)
  ∧ (∀ names,
       (extract ["name"] ["age"] false (Mem (Some name_extra) None)).1
       = Raise (UnknownKeyword names) →
       (extract ["name"] ["age"] false (Mem (Some name_extra) None)).2
       = Mem (Some (undeclared_entries (["name"] ++ ["age"]) name_extra)) None).
Proof.
  apply (probe_mode_mapping ["name"] ["age"] false name_extra). compute_done.
Defined.

(** X14: in probe mode the last loop stops the call whenever it has a slot to
    fill:
    every required key found, no fault for an undeclared key, and an optional
    key absent. *)
Lemma probe_mode_short_count_stops req opt restAllowed h :
  NoDup (req ++ opt) → NoDup (hash_keys h) → proper_values h →
  (∀ k, k ∈ req → has_key h k) →
  (restAllowed = false → ∀ key, key ∈ hash_keys h → declared (req ++ opt) key) →
  Z.of_nat (length req + length opt) ≤ INT_MAX →
  (∃ k, k ∈ opt ∧ ¬ has_key h k) →
  extract req opt restAllowed (Mem (Some h) None)
  = (Crash (NullWrite (Z.of_nat (length req)
                       + Z.of_nat (length (present_keys h opt)))),
     Mem (Some h) None).
Proof.
  intros Hnd Hh Hp Hreq Hrest Hint (k & Hk & Hnk). unfold extract.
  rewrite rb_get_kwargs_decode.
  rewrite rb_get_kwargs_from_found by (try done; by apply values_of_present).
  cbv zeta.
  assert (Hno : negb restAllowed
                && bool_decide
                     (hash_size (consumed None h (req ++ opt))
                      > to_unsigned_int
                          (permitted_size None
                             (Z.of_nat (length req)
                              + specified (values_of h opt)))) = false).
  { destruct restAllowed; [done|]. simpl negb. simpl andb.
    apply bool_decide_eq_false_2.
    rewrite (size_check req opt h None) by done.
    rewrite undeclared_entries_nil by auto. tauto. }
  rewrite Hno. unfold bind. rewrite specified_values_of by done.
  rewrite tail_fill_probe_short; [done|].
  pose proof (length_filter_lt (has_key h) opt k Hk Hnk) as Hlt.
  unfold present_keys. lia.
Qed.

Lemma probe_mode_short_count_stops_witness :
  extract ["name"] ["age"; "city"] true
    (Mem (Some [(Sym "city", Obj 3); (Sym "zip", Obj 4); (Sym "name", Obj 1)]) None)
  = (Crash (NullWrite
       (Z.of_nat (length ["name"])
        + Z.of_nat (length (present_keys
             [(Sym "city", Obj 3); (Sym "zip", Obj 4); (Sym "name", Obj 1)]
             ["age"; "city"])))),
     Mem (Some [(Sym "city", Obj 3); (Sym "zip", Obj 4); (Sym "name", Obj 1)]) None).
Proof.
  apply (probe_mode_short_count_stops ["name"] ["age"; "city"] true
           [(Sym "city", Obj 3); (Sym "zip", Obj 4); (Sym "name", Obj 1)]).
  - compute_done.
  - compute_done.
  - unfold proper_values. compute_done.
  - intros k ->%list_elem_of_singleton. compute_done.
  - discriminate.
  - unfold INT_MAX. simpl. lia.
  - exists "age". split; compute_done.
Defined.

(** ** Every exception of the call *)

(** X13: whatever the call raises on a mapping keyed by symbols is one of the
    two faults, with the message of the specification: the first missing required
    key alone, or the undeclared keys in the order of the mapping. *)
Lemma extract_fault_message req opt restAllowed h vals e :
  NoDup (req ++ opt) →
  (∀ key, key ∈ hash_keys h → is_symbol key) →
  buffer_fits vals (length req + length opt) →
  (extract req opt restAllowed (Mem (Some h) vals)).1 = Raise e →
  (∃ k, k ∈ req ∧ e = ArgError (keyword_message "missing" [k]))
  ∨ (restAllowed = false
     ∧ e = ArgError (keyword_message "unknown"
                       (symbol_names (hash_keys (undeclared_entries (req ++ opt) h))))).
Proof.
  intros Hnd Hsym Hb. unfold extract. rewrite rb_get_kwargs_decode.
  destruct (decide (Qundef ∈ values_of h req)) as [Hu|Hu].
  - destruct (first_undef_split _ _ Hu) as (pre & k & post & -> & Hpre & Hk).
    rewrite rb_get_kwargs_from_undef; [| | | done..].
    + simpl. intros [= <-]. left. exists k. split; [|done].
      apply elem_of_app. right. by left.
    + rewrite <- !app_assoc in Hnd. by apply NoDup_app in Hnd as [? _].
    + eapply buffer_fits_le; [|done]. rewrite length_app. simpl. lia.
  - rewrite rb_get_kwargs_from_found by done. cbv zeta.
    destruct restAllowed; simpl negb; simpl andb.
    + by intros ?%tail_fill_returns.
    + destruct (bool_decide _); [|by intros ?%tail_fill_returns].
      intros Hr. right. split; [done|].
      rewrite <- (symbol_names_symbols
                    (hash_keys (undeclared_entries (req ++ opt) h))) in Hr.
      * rewrite rb_keyword_error_unknown in Hr. by injection Hr as <-.
      * intros key Hkey. apply undeclared_entries_keys in Hkey as [Hkey _]. auto.
Qed.

Lemma extract_fault_message_witness :
  (∃ k, k ∈ ["name"]
        ∧ ArgError "unknown keyword: extra" = ArgError (keyword_message "missing" [k]))
  ∨ (false = false
     ∧ ArgError "unknown keyword: extra"
       = ArgError (keyword_message "unknown"
            (symbol_names (hash_keys (undeclared_entries (["name"] ++ []) name_extra))))).
Proof.
  apply (extract_fault_message ["name"] [] false name_extra None).
  - compute_done.
  - intros key Hkey. apply elem_of_cons in Hkey as [->|Hkey]; [done|].
    apply list_elem_of_singleton in Hkey as ->. done.
  - intros b [=].
  - reflexivity.
Defined.

(** ** The examples of the specification *)

Example name_without_age :
  extract ["name"] ["age"] false (Mem (Some name_only) (Some [Qnil; Qnil]))
  = (Ret 1, Mem (Some []) (Some [Obj 1; Qundef])).
Proof. reflexivity. Qed.

Example name_with_extra :
  extract ["name"] [] false (Mem (Some name_extra) (Some [Qnil]))
  = (Raise (UnknownKeyword ["extra"]),
     Mem (Some [(Sym "extra", Obj 2)]) (Some [Obj 1])).
Proof. reflexivity. Qed.

Example name_with_extra_allowed :
  extract ["name"] [] true (Mem (Some name_extra) (Some [Qnil]))
  = (Ret 1, Mem (Some [(Sym "extra", Obj 2)]) (Some [Obj 1])).
Proof. reflexivity. Qed.

Example id_without_name :
  extract ["name"; "id"] [] false
    (Mem (Some [(Sym "id", Obj 1)]) (Some [Qnil; Qnil]))
  = (Raise (MissingRequiredKeyword ["name"]),
     Mem (Some [(Sym "id", Obj 1)]) (Some [Qundef; Qnil])).
Proof. reflexivity. Qed.

Example key_that_is_no_symbol :
  extract ["name"] [] false
    (Mem (Some [(Sym "name", Obj 1); (Obj 5, Obj 2)]) None)
  = (Raise (TypeError (Obj 5)), Mem (Some [(Obj 5, Obj 2)]) None).
Proof. reflexivity. Qed.

(** * Further properties *)

(** ** What no call does to the mapping and the buffer *)

Lemma frame_refl m : frame m m.
Proof.
  destruct m as [[h|] [b|]]; split; simpl; auto.
Qed.

Lemma frame_trans m1 m2 m3 : frame m1 m2 → frame m2 m3 → frame m1 m3.
Proof.
  destruct m1 as [[h1|] [b1|]], m2 as [[h2|] [b2|]], m3 as [[h3|] [b3|]];
    unfold frame; simpl; intros [Hh12 Hb12] [Hh23 Hb23]; try done.
  all: split; [try done; by etrans|try done].
  all: destruct Hb12 as [Hl12 Hs12], Hb23 as [Hl23 Hs23].
  all: split; [congruence|].
  all: intros i v Hv; destruct (Hs23 i v Hv) as [Hv2|[->|(h & Hh & Hin)]];
         [by apply Hs12|by right; left|].
  - injection Hh as <-. right. right. exists h1. split; [done|].
    eapply elem_of_sublist; [done|]. by apply fmap_sublist.
  - done.
Qed.

Lemma hash_lookup2_value h key :
  hash_lookup2 h key Qundef = Qundef ∨ hash_lookup2 h key Qundef ∈ h.*2.
Proof.
  induction h as [|[k v] h IH]; [by left|]. simpl.
  destruct (decide (k = key)); [right; by left|].
  destruct IH as [IH|IH]; [by left|right; by right].
Qed.

Lemma frame_delete h key vals :
  frame (Mem (Some h) vals) (Mem (Some (hash_delete h key)) vals).
Proof.
  split; simpl; [apply sublist_filter|].
  destruct vals as [b|]; [|done]. split; [done|]. intros i v Hv. by left.
Qed.

Lemma frame_store oh b (i : nat) v :
  v = Qundef ∨ (∃ h, oh = Some h ∧ v ∈ h.*2) →
  frame (Mem oh (Some b)) (Mem oh (Some (<[i:=v]> b))).
Proof.
  intros Hv. split; simpl; [by destruct oh|].
  split; [apply length_insert|]. intros j w Hw.
  destruct (decide (i = j)) as [->|Hne].
  - apply list_lookup_insert_Some in Hw as [(_ & -> & _)|[? _]]; [|done].
    destruct Hv as [->|Hv]; [right; by left|right; by right].
  - rewrite list_lookup_insert_ne in Hw by done. by left.
Qed.

Lemma table_at_memory table i m : (table_at table i m).2 = m.
Proof.
  unfold table_at. destruct (bool_decide _); [|done].
  by destruct (table !! Z.to_nat i).
Qed.

Lemma store_value_frame i v m :
  v = Qundef ∨ (∃ h, kw_hash m = Some h ∧ v ∈ h.*2) →
  frame m (store_value i v m).2.
Proof.
  intros Hv. unfold store_value. destruct m as [oh [b|]]; simpl in *.
  - destruct (bool_decide _); simpl; [by apply frame_store|apply frame_refl].
  - apply frame_refl.
Qed.

Lemma frame_delete_store h key b (i : nat) :
  frame (Mem (Some h) (Some b))
    (Mem (Some (hash_delete h key)) (Some (<[i:=hash_lookup2 h key Qundef]> b))).
Proof.
  eapply frame_trans; [|apply frame_delete]. apply frame_store.
  destruct (hash_lookup2_value h key) as [Hv|Hv]; [by left|right; eauto].
Qed.

Lemma required_step_frame table n acc m :
  frame m (required_step table n acc m).2.
Proof.
  unfold required_step, bind. pose proof (table_at_memory table n m) as Ht.
  destruct (table_at table n m) as [[key|e|f] m1]; simpl in Ht; subst m1;
    [|apply frame_refl..].
  unfold rb_tr_extract_keyword, bind, rb_hash_lookup2, values_present,
    rb_hash_delete, store_value, ret.
  destruct m as [[h|] [b|]]; simpl; [| |apply frame_refl..].
  - destruct (bool_decide (0 ≤ n < _)); [|apply frame_delete].
    destruct (bool_decide (hash_lookup2 h (Sym key) Qundef = Qundef));
      rewrite ?rb_keyword_error_missing; apply frame_delete_store.
  - destruct (bool_decide (hash_lookup2 h (Sym key) Qundef = Qundef));
      rewrite ?rb_keyword_error_missing; apply frame_refl.
Qed.

Lemma optional_step_frame table n acc m :
  frame m (optional_step table n acc m).2.
Proof.
  unfold optional_step, bind. pose proof (table_at_memory table n m) as Ht.
  destruct (table_at table n m) as [[key|e|f] m1]; simpl in Ht; subst m1;
    [|apply frame_refl..].
  unfold rb_tr_extract_keyword, bind, rb_hash_lookup2, values_present,
    rb_hash_delete, store_value, ret.
  destruct m as [[h|] [b|]]; simpl; [| |apply frame_refl..].
  - destruct (bool_decide (0 ≤ n < _)); [|apply frame_delete].
    destruct (bool_decide (hash_lookup2 h (Sym key) Qundef ≠ Qundef));
      apply frame_delete_store.
  - destruct (bool_decide (hash_lookup2 h (Sym key) Qundef ≠ Qundef));
      apply frame_refl.
Qed.

Lemma for_loop_frame {A} (body : Z → A → M A) :
  (∀ i acc m, frame m (body i acc m).2) →
  ∀ count i acc m, frame m (for_loop count i body acc m).2.
Proof.
  intros Hbody. induction count as [|count IH]; intros i acc m.
  - apply frame_refl.
  - simpl for_loop. unfold bind. specialize (Hbody i acc m).
    destruct (body i acc m) as [[acc'|e|f] m1]; [|done..].
    eapply frame_trans; [done|apply IH].
Qed.

Lemma rb_keyword_error_memory {A} error keys m :
  (rb_keyword_error (A:=A) error keys m).2 = m.
Proof.
  destruct (rb_keyword_error_raises error keys m) as [e He]. by rewrite He.
Qed.

Lemma delete_step_frame table i (acc : unit) m :
  frame m ((let* key := table_at table i in rb_hash_delete (Sym key)) m).2.
Proof.
  unfold bind. pose proof (table_at_memory table i m) as Ht.
  destruct (table_at table i m) as [[key|e|f] m2]; simpl in Ht; subst m2;
    [|apply frame_refl..].
  unfold rb_hash_delete. destruct m as [[h|] vals]; simpl;
    [apply frame_delete|apply frame_refl].
Qed.

Lemma unknown_keyword_error_frame {A} table keywords m :
  frame m (unknown_keyword_error (A:=A) table keywords m).2.
Proof.
  unfold unknown_keyword_error, for_range. unfold bind at 1.
  pose proof (for_loop_frame
                (λ i (_ : unit), let* key := table_at table i in
                                 rb_hash_delete (Sym key))
                (delete_step_frame table)
                (Z.to_nat (keywords - 0)) 0 () m) as Hloop.
  destruct (for_loop _ 0 _ () m) as [[[]|e|f] m1]; [|done..].
  eapply frame_trans; [done|].
  unfold bind, rb_hash_keys. destruct (kw_hash m1); [|apply frame_refl].
  rewrite rb_keyword_error_memory. apply frame_refl.
Qed.

Lemma rest_check_frame table required rest optional extracted m :
  frame m (rest_check table required rest optional extracted m).2.
Proof.
  unfold rest_check. unfold bind at 1. unfold NIL_P_keyword_hash.
  destruct (negb rest && negb _); [|apply frame_refl].
  unfold bind, RHASH_SIZE, values_present.
  destruct (kw_hash m); [|apply frame_refl].
  destruct (bool_decide (_ > _)); [|apply frame_refl].
  apply unknown_keyword_error_frame.
Qed.

Lemma tail_fill_frame required optional extracted m :
  frame m (tail_fill required optional extracted m).2.
Proof.
  unfold tail_fill, for_range. apply for_loop_frame.
  intros i acc m0. apply store_value_frame. by left.
Qed.

Lemma bind_frame {A B} (c : M A) (k : A → M B) m :
  frame m (c m).2 → (∀ a m1, frame m1 (k a m1).2) → frame m (bind c k m).2.
Proof.
  intros Hc Hk. unfold bind. destruct (c m) as [[a|e|f] m1]; [|done..].
  eapply frame_trans; [done|apply Hk].
Qed.

(** The frame holds along every run of the model, up to where it ends. *)
Lemma frame_of_rb_get_kwargs table required optional m :
  frame m (rb_get_kwargs table required optional m).2.
Proof.
  assert (Hfrom : ∀ rest optional,
            frame m (rb_get_kwargs_from table required rest optional m).2).
  { intros rest O. unfold rb_get_kwargs_from.
    apply bind_frame.
    { apply for_loop_frame. apply required_step_frame. }
    intros e1 m1. apply bind_frame.
    { unfold optional_pass, bind, NIL_P_keyword_hash.
      destruct (negb _ && negb _); [|apply frame_refl].
      apply for_loop_frame. apply optional_step_frame. }
    intros e2 m2. apply bind_frame; [apply rest_check_frame|].
    intros [] m3. apply bind_frame; [apply tail_fill_frame|].
    intros [] m4. apply frame_refl. }
  unfold rb_get_kwargs. destruct (bool_decide _); apply Hfrom.
Qed.

(** ** A call that returns in probe mode *)

Lemma required_step_probe_memory table n acc oh :
  (required_step table n acc (Mem oh None)).2 = Mem oh None.
Proof.
  unfold required_step, bind.
  pose proof (table_at_memory table n (Mem oh None)) as Ht.
  destruct (table_at table n (Mem oh None)) as [[key|e|f] m1];
    simpl in Ht; subst m1; [|done..].
  unfold rb_tr_extract_keyword, bind, rb_hash_lookup2, values_present, ret.
  destruct oh as [h|]; simpl; [|done].
  destruct (bool_decide _); [|done]. apply rb_keyword_error_memory.
Qed.

Lemma optional_step_probe_memory table n acc oh :
  (optional_step table n acc (Mem oh None)).2 = Mem oh None.
Proof.
  unfold optional_step, bind.
  pose proof (table_at_memory table n (Mem oh None)) as Ht.
  destruct (table_at table n (Mem oh None)) as [[key|e|f] m1];
    simpl in Ht; subst m1; [|done..].
  unfold rb_tr_extract_keyword, bind, rb_hash_lookup2, values_present, ret.
  destruct oh as [h|]; simpl; [|done].
  by destruct (bool_decide _).
Qed.

Lemma for_loop_probe_memory {A} (body : Z → A → M A) oh :
  (∀ i acc, (body i acc (Mem oh None)).2 = Mem oh None) →
  ∀ count i acc, (for_loop count i body acc (Mem oh None)).2 = Mem oh None.
Proof.
  intros Hbody. induction count as [|count IH]; intros i acc; [done|].
  simpl for_loop. unfold bind. specialize (Hbody i acc).
  destruct (body i acc (Mem oh None)) as [[acc'|e|f] m1];
    simpl in Hbody; subst m1; [|done..].
  apply IH.
Qed.

Lemma unknown_keyword_error_no_return {A} table keywords m (a : A) :
  (unknown_keyword_error table keywords m).1 ≠ Ret a.
Proof.
  unfold unknown_keyword_error. unfold bind at 1.
  destruct (for_range 0 keywords _ () m) as [[[]|e|f] m1]; [|done..].
  unfold bind, rb_hash_keys. destruct (kw_hash m1); [|done].
  destruct (rb_keyword_error_raises "unknown" (hash_keys l) m1) as [e He].
  by rewrite He.
Qed.

Lemma rest_check_return table required rest optional extracted m u :
  (rest_check table required rest optional extracted m).1 = Ret u →
  (rest_check table required rest optional extracted m).2 = m.
Proof.
  unfold rest_check, bind, NIL_P_keyword_hash, RHASH_SIZE, values_present.
  cbv beta iota.
  destruct (negb rest && negb _); [|done].
  destruct (kw_hash m); [|done].
  destruct (bool_decide (_ > _)); [|done].
  intros Hr. by apply unknown_keyword_error_no_return in Hr.
Qed.

(** In probe mode the last loop lets no count below [required + optional]
    through, and a run that returns has not touched the mapping. *)
Lemma return_in_probe_mode table required optional oh n m' :
  rb_get_kwargs table required optional (Mem oh None) = (Ret n, m') →
  m' = Mem oh None
  ∧ required + (if bool_decide (optional < 0) then -1 - optional else optional)
    ≤ n.
Proof.
  assert (Hfrom : ∀ rest O,
            rb_get_kwargs_from table required rest O (Mem oh None) = (Ret n, m') →
            m' = Mem oh None ∧ required + O ≤ n).
  { intros rest O. unfold rb_get_kwargs_from. unfold bind at 1.
    pose proof (for_loop_probe_memory (required_step table) oh
                  (λ i acc, required_step_probe_memory table i acc oh)
                  (Z.to_nat (required - 0)) 0 0) as H1.
    unfold required_pass, for_range.
    destruct (for_loop _ 0 (required_step table) 0 (Mem oh None))
      as [[e1|e|f] m1]; simpl in H1; subst m1; [|done..].
    unfold bind at 1.
    assert (H2 : (optional_pass table required O e1 (Mem oh None)).2 = Mem oh None).
    { unfold optional_pass, bind, NIL_P_keyword_hash.
      destruct (negb _ && negb _); [|done].
      apply for_loop_probe_memory. intros i acc.
      apply optional_step_probe_memory. }
    destruct (optional_pass table required O e1 (Mem oh None))
      as [[e2|e|f] m2]; simpl in H2; subst m2; [|done..].
    unfold bind at 1.
    pose proof (rest_check_return table required rest O e2 (Mem oh None)) as H3.
    destruct (rest_check table required rest O e2 (Mem oh None))
      as [[[]|e|f] m3]; [|done..].
    specialize (H3 () eq_refl). simpl in H3. subst m3.
    unfold bind.
    destruct (decide (e2 < required + O)) as [Hlt|Hge].
    - by rewrite tail_fill_probe_short.
    - rewrite tail_fill_probe_full by lia. intros [= <- <-]. split; [done|lia]. }
  unfold rb_get_kwargs. destruct (bool_decide _); apply Hfrom.
Qed.

(** ** The error functions *)

Lemma append_keys_non_symbol names : ∀ acc v keys m,
  is_symbol v = false →
  append_keys acc ((Sym <$> names) ++ v :: keys) m = (Raise (TypeError v), m).
Proof.
  induction names as [|name names IH]; intros acc v keys m Hv.
  - simpl. by destruct v.
  - rewrite fmap_cons. simpl.
    destruct ((Sym <$> names) ++ v :: keys) as [|k l] eqn:Hl.
    + by destruct names.
    + rewrite <- Hl. by apply IH.
Qed.

Lemma rb_keyword_error_new_non_symbol error names v keys m :
  is_symbol v = false →
  rb_keyword_error_new error ((Sym <$> names) ++ v :: keys) m
  = (Raise (TypeError v), m).
Proof.
  intros Hv. unfold rb_keyword_error_new.
  rewrite bool_decide_eq_true_2 by (rewrite length_app; simpl; lia).
  unfold bind. by rewrite append_keys_non_symbol.
Qed.

Lemma append_keys_raise keys : ∀ acc m e m',
  append_keys acc keys m = (Raise e, m') →
  ∃ v, v ∈ keys ∧ is_symbol v = false ∧ e = TypeError v.
Proof.
  induction keys as [|key keys IH]; intros acc m e m' Hr; [done|].
  destruct key; try (injection Hr as <- _; eexists; split; [by left|done]).
  simpl in Hr. destruct keys as [|key' keys]; [done|].
  apply IH in Hr as (v & Hin & Hv & ->). exists v. split; [by right|done].
Qed.

(** X3: [rb_keyword_error_new] checks the keys in order: with a key that is
    no symbol after symbols only, it builds no message and raises the type
    error of [Check_Type] for that key, under either kind and whatever keys
    follow; [rb_keyword_error] raises the same. *)
Theorem keyword_error_non_symbol error names v keys m :
  is_symbol v = false →
  rb_keyword_error_new error ((Sym <$> names) ++ v :: keys) m
  = (Raise (TypeError v), m)
  ∧ rb_keyword_error (A:=Z) error ((Sym <$> names) ++ v :: keys) m
    = (Raise (TypeError v), m).
Proof.
  intros Hv. split; [by apply rb_keyword_error_new_non_symbol|].
  unfold rb_keyword_error, bind.
  by rewrite rb_keyword_error_new_non_symbol.
Qed.

Lemma keyword_error_non_symbol_witness :
  rb_keyword_error_new "unknown" ((Sym <$> ["a"; "b"]) ++ Obj 5 :: [Sym "c"; Qnil])
    (Mem None None)
  = (Raise (TypeError (Obj 5)), Mem None None)
  ∧ rb_keyword_error (A:=Z) "unknown"
      ((Sym <$> ["a"; "b"]) ++ Obj 5 :: [Sym "c"; Qnil]) (Mem None None)
    = (Raise (TypeError (Obj 5)), Mem None None).
Proof.
  apply (keyword_error_non_symbol "unknown" ["a"; "b"] (Obj 5) [Sym "c"; Qnil]).
  reflexivity.
Defined.

(** X4: [rb_keyword_error] does not return: on every kind, key list and memory
    it raises, and leaves the memory alone; the exception is an argument error
    whose message begins with the kind, or the type error of a key of the
    list that is no symbol. *)
Theorem rb_keyword_error_noreturn (A : Type) error keys m :
  ∃ e, rb_keyword_error (A:=A) error keys m = (Raise e, m)
       ∧ ((∃ rest, e = ArgError (error +:+ rest))
          ∨ (∃ v, v ∈ keys ∧ is_symbol v = false ∧ e = TypeError v)).
Proof.
  unfold rb_keyword_error, rb_keyword_error_new, bind.
  destruct (bool_decide (Z.of_nat (length keys) > 0)).
  - destruct (append_keys_outcome keys
                ((error +:+ " keyword" +:+
                  String.substring 0
                    (if bool_decide (Z.of_nat (length keys) > 1)
                     then 1%nat else 0%nat) "s") +:+ ": ") m)
      as [[s Hs]|[e He]].
    + rewrite Hs. eexists. split; [done|]. left.
      apply append_keys_prefix in Hs as [t ->].
      rewrite !string_app_assoc. by eexists.
    + rewrite He. eexists. split; [done|]. right.
      by apply append_keys_raise in He.
  - eexists. split; [done|]. left. by eexists.
Qed.

(** ** [unknown_keyword_error] *)

(** X5: on a mapping, [unknown_keyword_error] with a count inside the table
    does not return: it deletes the first [keywords] keys of the table from
    the mapping, leaves the other entries in their order, and raises for the
    keys that are left; when these are symbols the exception is
    UnknownKeyword with their names. *)
Theorem unknown_keyword_error_deletes (A : Type) table (keywords : nat) h vals :
  (keywords ≤ length table)%nat →
  ∃ e,
    unknown_keyword_error (A:=A) table (Z.of_nat keywords) (Mem (Some h) vals)
    = (Raise e, Mem (Some (undeclared_entries (take keywords table) h)) vals)
    ∧ (∀ k, k ∈ take keywords table →
         ¬ has_key (undeclared_entries (take keywords table) h) k)
    ∧ ((∀ key, key ∈ hash_keys h → is_symbol key) →
       e = UnknownKeyword
             (symbol_names
                (hash_keys (undeclared_entries (take keywords table) h)))).
Proof.
  intros Hk. unfold unknown_keyword_error, for_range. unfold bind at 1.
  rewrite Z.sub_0_r, Nat2Z.id.
  assert (Hlen : length (take keywords table) = keywords)
    by (rewrite length_take; lia).
  pose proof (delete_loop table (take keywords table) [] (drop keywords table)
                h vals) as Hloop.
  rewrite Hlen, hash_delete_table in Hloop.
  change (Z.of_nat (length [])) with 0 in Hloop.
  destruct (rb_keyword_error_raises "unknown"
              (hash_keys (undeclared_entries (take keywords table) h))
              (Mem (Some (undeclared_entries (take keywords table) h)) vals))
    as [e He].
  exists e. rewrite Hloop by (by rewrite take_drop).
  split; [apply He|]. split.
  - intros k Hin Hhas. apply undeclared_entries_keys in Hhas as [_ Hn].
    apply Hn. by apply list_elem_of_fmap_2.
  - intros Hsym. specialize (He A).
    rewrite <- (symbol_names_symbols
                  (hash_keys (undeclared_entries (take keywords table) h))) in He.
    + rewrite rb_keyword_error_unknown in He. by injection He as <-.
    + intros key Hkey. apply undeclared_entries_keys in Hkey as [Hkey _]. auto.
Qed.

Lemma unknown_keyword_error_deletes_witness :
  ∃ e,
    unknown_keyword_error (A:=Z) ["a"; "b"; "c"] (Z.of_nat 2)
      (Mem (Some [(Sym "c", Obj 3); (Sym "a", Obj 1); (Sym "z", Obj 9)]) None)
    = (Raise e,
       Mem (Some (undeclared_entries (take 2 ["a"; "b"; "c"])
                    [(Sym "c", Obj 3); (Sym "a", Obj 1); (Sym "z", Obj 9)])) None)
    ∧ (∀ k, k ∈ take 2 ["a"; "b"; "c"] →
         ¬ has_key (undeclared_entries (take 2 ["a"; "b"; "c"])
                      [(Sym "c", Obj 3); (Sym "a", Obj 1); (Sym "z", Obj 9)]) k)
    ∧ ((∀ key, key ∈ hash_keys [(Sym "c", Obj 3); (Sym "a", Obj 1); (Sym "z", Obj 9)]
               → is_symbol key) →
       e = UnknownKeyword
             (symbol_names
                (hash_keys (undeclared_entries (take 2 ["a"; "b"; "c"])
                   [(Sym "c", Obj 3); (Sym "a", Obj 1); (Sym "z", Obj 9)])))).
Proof.
  apply (unknown_keyword_error_deletes Z ["a"; "b"; "c"] 2
           [(Sym "c", Obj 3); (Sym "a", Obj 1); (Sym "z", Obj 9)] None).
  simpl. lia.
Defined.

(** ** [rb_tr_extract_keyword] *)

Lemma hash_lookup2_delete_eq h key def :
  hash_lookup2 (hash_delete h key) key def = def.
Proof.
  apply hash_lookup2_absent. unfold hash_keys, hash_delete.
  intros (p & -> & Hp)%list_elem_of_fmap.
  by apply list_elem_of_filter in Hp as [Hp _].
Qed.

Lemma hash_delete_comm h key key' :
  hash_delete (hash_delete h key) key' = hash_delete (hash_delete h key') key.
Proof.
  unfold hash_delete. rewrite !list_filter_filter.
  apply list_filter_iff. tauto.
Qed.

Lemma hash_delete_idemp h key :
  hash_delete (hash_delete h key) key = hash_delete h key.
Proof.
  unfold hash_delete. rewrite list_filter_filter.
  apply list_filter_iff. tauto.
Qed.

Lemma rb_tr_extract_keyword_run key h vals :
  rb_tr_extract_keyword key (Mem (Some h) vals)
  = (Ret (hash_lookup2 h (Sym key) Qundef),
     Mem (Some (consumed vals h [key])) vals).
Proof. by destruct vals. Qed.

(** X6: two different keys can be taken from a mapping in either order: the
    two values and the mapping left are the same, in extract mode and in
    probe mode. *)
Theorem extract_keyword_commute k1 k2 h vals :
  k1 ≠ k2 →
  (let* v1 := rb_tr_extract_keyword k1 in
   let* v2 := rb_tr_extract_keyword k2 in ret (v1, v2)) (Mem (Some h) vals)
  = (Ret (hash_lookup2 h (Sym k1) Qundef, hash_lookup2 h (Sym k2) Qundef),
     Mem (Some (consumed vals h [k1; k2])) vals)
  ∧ (let* v2 := rb_tr_extract_keyword k2 in
     let* v1 := rb_tr_extract_keyword k1 in ret (v1, v2)) (Mem (Some h) vals)
    = (Ret (hash_lookup2 h (Sym k1) Qundef, hash_lookup2 h (Sym k2) Qundef),
       Mem (Some (consumed vals h [k1; k2])) vals).
Proof.
  intros Hne. unfold bind. rewrite !rb_tr_extract_keyword_run. unfold ret.
  destruct vals as [b|]; simpl; [|done].
  rewrite !hash_lookup2_delete_ne by congruence.
  by rewrite (hash_delete_comm h (Sym k2)).
Qed.

Lemma extract_keyword_commute_witness :
  (let* v1 := rb_tr_extract_keyword "a" in
   let* v2 := rb_tr_extract_keyword "b" in ret (v1, v2))
    (Mem (Some [(Sym "b", Obj 2); (Sym "a", Obj 1)]) (Some []))
  = (Ret (hash_lookup2 [(Sym "b", Obj 2); (Sym "a", Obj 1)] (Sym "a") Qundef,
          hash_lookup2 [(Sym "b", Obj 2); (Sym "a", Obj 1)] (Sym "b") Qundef),
     Mem (Some (consumed (Some []) [(Sym "b", Obj 2); (Sym "a", Obj 1)] ["a"; "b"]))
         (Some []))
  ∧ (let* v2 := rb_tr_extract_keyword "b" in
     let* v1 := rb_tr_extract_keyword "a" in ret (v1, v2))
      (Mem (Some [(Sym "b", Obj 2); (Sym "a", Obj 1)]) (Some []))
    = (Ret (hash_lookup2 [(Sym "b", Obj 2); (Sym "a", Obj 1)] (Sym "a") Qundef,
            hash_lookup2 [(Sym "b", Obj 2); (Sym "a", Obj 1)] (Sym "b") Qundef),
       Mem (Some (consumed (Some []) [(Sym "b", Obj 2); (Sym "a", Obj 1)] ["a"; "b"]))
           (Some [])).
Proof.
  apply (extract_keyword_commute "a" "b" [(Sym "b", Obj 2); (Sym "a", Obj 1)]
           (Some [])).
  discriminate.
Defined.

(** X7: taking the same key twice: in extract mode the first call deletes the
    entry, so the second returns [Qundef] and changes nothing more; in probe
    mode the second call returns the value again. *)
Theorem extract_keyword_twice key h b :
  (let* _ := rb_tr_extract_keyword key in rb_tr_extract_keyword key)
    (Mem (Some h) (Some b))
  = (Ret Qundef, Mem (Some (hash_delete h (Sym key))) (Some b))
  ∧ (let* _ := rb_tr_extract_keyword key in rb_tr_extract_keyword key)
      (Mem (Some h) None)
    = (Ret (hash_lookup2 h (Sym key) Qundef), Mem (Some h) None).
Proof.
  unfold bind. rewrite !rb_tr_extract_keyword_run. simpl.
  by rewrite hash_lookup2_delete_eq, hash_delete_idemp.
Qed.

(** ** A schema that lists a required key twice *)

Lemma required_pass_missing_after pre k post h vals required :
  NoDup pre → buffer_fits vals (S (length pre)) →
  Qundef ∉ values_of h pre →
  hash_lookup2 (consumed vals h pre) (Sym k) Qundef = Qundef →
  Z.of_nat (length pre) < required →
  required_pass (pre ++ k :: post) required (Mem (Some h) vals)
  = (Raise (MissingRequiredKeyword [k]),
     Mem (Some (consumed vals h (pre ++ [k])))
         (written 0 (values_of h pre ++ [Qundef]) <$> vals)).
Proof.
  intros Hnd Hb Hv Hk' Hr. unfold required_pass, for_range.
  replace (Z.to_nat (required - 0))
    with (length pre + S (Z.to_nat (required - 0 - Z.of_nat (S (length pre)))))%nat
    by lia.
  rewrite for_loop_add. unfold bind at 1.
  rewrite (pass_run (pre ++ k :: post) (required_step (pre ++ k :: post))
             (λ v, v ≠ Qundef) (required_step_found _) pre [] (k :: post));
    [| done | done | eapply buffer_fits_le; [|done]; simpl; lia
     | apply Forall_forall; by intros v Hin -> ].
  simpl for_loop. unfold bind.
  change (0 + Z.of_nat (length pre)) with (Z.of_nat (length pre)).
  rewrite (required_step_missing _ _ k); [| by apply list_lookup_middle | | done].
  - rewrite consumed_fmap, consumed_app. f_equal. f_equal.
    destruct vals as [b|]; [|done]. simpl. f_equal.
    rewrite <- written_snoc
      by (specialize (Hb b eq_refl); rewrite length_values_of; simpl; lia).
    by rewrite length_values_of.
  - intros b Hvb. destruct vals as [b0|]; [|done]. injection Hvb as <-.
    specialize (Hb b0 eq_refl).
    rewrite length_written by (rewrite length_values_of; simpl; lia). done.
Qed.

(** X8: in extract mode a required key that the schema lists a second time is
    reported missing although the mapping holds it: its entry was deleted at
    the first occurrence.  The call raises MissingRequiredKeyword for it, with
    the keys before the second occurrence consumed. *)
Theorem duplicate_required_key_missing pre k post opt restAllowed h b :
  NoDup pre → k ∈ pre →
  proper_values h → (∀ k', k' ∈ pre → has_key h k') →
  (S (length pre) ≤ length b)%nat →
  has_key h k
  ∧ extract (pre ++ k :: post) opt restAllowed (Mem (Some h) (Some b))
    = (Raise (MissingRequiredKeyword [k]),
       Mem (Some (consumed (Some b) h pre))
           (Some (written 0 (values_of h pre ++ [Qundef]) b))).
Proof.
  intros Hnd Hk Hp Hpre Hb. split; [by apply Hpre|].
  unfold extract. rewrite rb_get_kwargs_decode.
  unfold rb_get_kwargs_from. unfold bind at 1.
  rewrite <- app_assoc. simpl app.
  assert (Hk' : hash_lookup2 (consumed (Some b) h pre) (Sym k) Qundef = Qundef).
  { apply hash_lookup2_absent. by apply consumed_extract_keys. }
  rewrite required_pass_missing_after;
    [| done | intros b0 [= <-]; done | by apply values_of_present | done
     | rewrite length_app; simpl; lia].
  simpl. f_equal. f_equal. f_equal.
  rewrite fmap_app, foldl_app. simpl.
  apply hash_delete_absent.
  change (foldl hash_delete h (Sym <$> pre)) with (consumed (Some b) h pre).
  by apply consumed_extract_keys.
Qed.

Lemma duplicate_required_key_missing_witness :
  has_key [(Sym "a", Obj 1); (Sym "b", Obj 2)] "a"
  ∧ extract (["a"; "b"] ++ "a" :: []) [] true
      (Mem (Some [(Sym "a", Obj 1); (Sym "b", Obj 2)]) (Some [Qnil; Qnil; Qnil]))
    = (Raise (MissingRequiredKeyword ["a"]),
       Mem (Some (consumed (Some [Qnil; Qnil; Qnil])
                    [(Sym "a", Obj 1); (Sym "b", Obj 2)] ["a"; "b"]))
           (Some (written 0
                    (values_of [(Sym "a", Obj 1); (Sym "b", Obj 2)] ["a"; "b"]
                     ++ [Qundef])
                    [Qnil; Qnil; Qnil]))).
Proof.
  apply (duplicate_required_key_missing ["a"; "b"] "a" [] [] true
           [(Sym "a", Obj 1); (Sym "b", Obj 2)] [Qnil; Qnil; Qnil]).
  - compute_done.
  - compute_done.
  - unfold proper_values. compute_done.
  - intros k' Hk'. apply elem_of_cons in Hk' as [->|Hk']; [compute_done|].
    apply list_elem_of_singleton in Hk' as ->. compute_done.
  - simpl. lia.
Defined.

(** ** Probe mode and extract mode raise alike *)

Lemma append_keys_memory keys : ∀ acc m m',
  (append_keys acc keys m).1 = (append_keys acc keys m').1.
Proof.
  induction keys as [|key keys IH]; intros acc m m'; [done|].
  destruct key; try done. simpl. destruct keys; [done|]. apply IH.
Qed.

Lemma rb_keyword_error_any_memory {A} error keys m m' :
  (rb_keyword_error (A:=A) error keys m).1
  = (rb_keyword_error (A:=A) error keys m').1.
Proof.
  unfold rb_keyword_error, rb_keyword_error_new, bind.
  destruct (bool_decide (Z.of_nat (length keys) > 0)); [|done].
  pose proof (append_keys_memory keys
                ((error +:+ " keyword" +:+
                  String.substring 0
                    (if bool_decide (Z.of_nat (length keys) > 1)
                     then 1%nat else 0%nat) "s") +:+ ": ") m m') as Hm.
  destruct (append_keys _ keys m) as [[s|e|f] m1],
           (append_keys _ keys m') as [[s'|e'|f'] m1']; simpl in Hm; try done.
  all: by injection Hm as ->.
Qed.

Lemma values_of_found h keys :
  Qundef ∉ values_of h keys → ∀ k, k ∈ keys → has_key h k.
Proof.
  intros Hv k Hk. apply hash_lookup2_found. intros Hq. apply Hv.
  rewrite <- Hq. apply list_elem_of_fmap. by exists k.
Qed.

(** X9: the validation of probe mode is the validation of extract mode: on a
    mapping with unique keys and no Unspecified value, for a schema with
    unique keys, a probe-mode call raises an exception exactly when the
    extract-mode call on the same mapping raises it. *)
Theorem probe_and_extract_raise_alike req opt restAllowed h b e :
  NoDup (req ++ opt) → NoDup (hash_keys h) → proper_values h →
  (length req + length opt ≤ length b)%nat →
  Z.of_nat (length req + length opt) ≤ INT_MAX →
  (extract req opt restAllowed (Mem (Some h) None)).1 = Raise e
  ↔ (extract req opt restAllowed (Mem (Some h) (Some b))).1 = Raise e.
Proof.
  intros Hnd Hh Hp Hb Hint. unfold extract. rewrite !rb_get_kwargs_decode.
  assert (Hfit : buffer_fits (Some b) (length req + length opt))
    by (by intros b0 [= <-]).
  destruct (decide (Qundef ∈ values_of h req)) as [Hu|Hu].
  - destruct (first_undef_split _ _ Hu) as (pre & k & post & -> & Hpre & Hk).
    assert (Hndp : NoDup pre).
    { rewrite <- !app_assoc in Hnd. by apply NoDup_app in Hnd as [? _]. }
    rewrite !rb_get_kwargs_from_undef; try done.
    eapply buffer_fits_le; [|done]. rewrite length_app. simpl. lia.
  - pose proof (values_of_found _ _ Hu) as Hreq.
    rewrite !rb_get_kwargs_from_found by done. cbv zeta.
    pose proof (size_check req opt h None Hnd Hh Hp Hreq Hint) as Hs1.
    pose proof (size_check req opt h (Some b) Hnd Hh Hp Hreq Hint) as Hs2.
    destruct (decide (undeclared_entries (req ++ opt) h ≠ [])) as [Hne|Hnil].
    + rewrite !bool_decide_eq_true_2 by tauto.
      destruct restAllowed; simpl negb; simpl andb.
      * split; intros Hr; by apply tail_fill_returns in Hr.
      * cbv beta iota. by erewrite rb_keyword_error_any_memory.
    + rewrite !bool_decide_eq_false_2 by tauto. rewrite !andb_false_r.
      split; intros Hr; by apply tail_fill_returns in Hr.
Qed.

Lemma probe_and_extract_raise_alike_witness :
  (extract ["name"] ["age"] false (Mem (Some name_extra) None)).1
  = Raise (UnknownKeyword ["extra"])
  ↔ (extract ["name"] ["age"] false (Mem (Some name_extra) (Some [Qnil; Qnil]))).1
    = Raise (UnknownKeyword ["extra"]).
Proof.
  apply (probe_and_extract_raise_alike ["name"] ["age"] false name_extra
           [Qnil; Qnil] (UnknownKeyword ["extra"])).
  - compute_done.
  - compute_done.
  - unfold proper_values. compute_done.
  - simpl. lia.
  - unfold INT_MAX. simpl. lia.
Defined.

(** ** A key of the mapping that is no symbol *)

(** X10: rest keys not allowed, every required key in the mapping, and the
    first undeclared key that is no symbol: the call raises the type error of
    [Check_Type] for that key instead of UnknownKeyword, after the schema keys
    were deleted from the mapping, in either mode. *)
Theorem undeclared_non_symbol_key req opt h vals names v keys :
  NoDup (req ++ opt) → NoDup (hash_keys h) → proper_values h →
  (∀ k, k ∈ req → has_key h k) →
  buffer_fits vals (length req + length opt) →
  Z.of_nat (length req + length opt) ≤ INT_MAX →
  hash_keys (undeclared_entries (req ++ opt) h) = (Sym <$> names) ++ v :: keys →
  is_symbol v = false →
  (extract req opt false (Mem (Some h) vals)).1 = Raise (TypeError v)
  ∧ kw_hash (extract req opt false (Mem (Some h) vals)).2
    = Some (undeclared_entries (req ++ opt) h).
Proof.
  intros Hnd Hh Hp Hreq Hb Hint Hkeys Hv. unfold extract.
  rewrite rb_get_kwargs_decode.
  rewrite rb_get_kwargs_from_found by (try done; by apply values_of_present).
  cbv zeta. rewrite bool_decide_eq_true_2.
  - simpl negb. simpl andb. rewrite Hkeys.
    unfold rb_keyword_error, bind.
    by rewrite rb_keyword_error_new_non_symbol.
  - apply size_check; try done. intros Hnil. rewrite Hnil in Hkeys.
    by destruct names.
Qed.

Lemma undeclared_non_symbol_key_witness :
  (extract ["name"] [] false
     (Mem (Some [(Sym "name", Obj 1); (Sym "x", Obj 2); (Obj 5, Obj 3)]) None)).1
  = Raise (TypeError (Obj 5))
  ∧ kw_hash (extract ["name"] [] false
       (Mem (Some [(Sym "name", Obj 1); (Sym "x", Obj 2); (Obj 5, Obj 3)]) None)).2
    = Some (undeclared_entries (["name"] ++ [])
              [(Sym "name", Obj 1); (Sym "x", Obj 2); (Obj 5, Obj 3)]).
Proof.
  apply (undeclared_non_symbol_key ["name"] []
           [(Sym "name", Obj 1); (Sym "x", Obj 2); (Obj 5, Obj 3)] None
           ["x"] (Obj 5) []).
  - compute_done.
  - compute_done.
  - unfold proper_values. compute_done.
  - intros k ->%list_elem_of_singleton. compute_done.
  - intros b [=].
  - unfold INT_MAX. simpl. lia.
  - reflexivity.
  - reflexivity.
Defined.

(** ** The buffer after a call that returns in extract mode *)

Lemma final_buffer (e n : nat) vs b :
  length b = n → length vs = n → (e ≤ n)%nat →
  written e (replicate (n - e) Qundef) (written 0 vs b)
  = take e vs ++ replicate (n - e) Qundef.
Proof.
  intros Hb Hvs He.
  assert (Hw : written 0 vs b = vs).
  { unfold written. simpl. rewrite drop_ge by lia. apply app_nil_r. }
  rewrite Hw. unfold written. rewrite length_replicate.
  rewrite drop_ge by lia. by rewrite app_nil_r.
Qed.

Lemma values_of_absent h keys :
  (∀ k, k ∈ keys → ¬ has_key h k) →
  values_of h keys = replicate (length keys) Qundef.
Proof.
  induction keys as [|k keys IH]; intros Hk; [done|].
  change (values_of h (k :: keys))
    with (hash_lookup2 h (Sym k) Qundef :: values_of h keys).
  simpl. rewrite IH by (intros k' Hin; apply Hk; by right).
  rewrite hash_lookup2_absent; [done|]. apply Hk. by left.
Qed.

Lemma present_keys_none h keys :
  (∀ k, k ∈ keys → ¬ has_key h k) → present_keys h keys = [].
Proof.
  unfold present_keys. induction keys as [|k keys IH]; intros Hk; [done|].
  rewrite filter_cons_False by (apply Hk; by left).
  apply IH. intros k' Hin. apply Hk. by right.
Qed.

(** X11: a call that returns in extract mode has initialised the whole
    buffer, and nothing of its former content is left: the slots below the
    returned count hold the values of their keys ([Qundef] for an absent
    optional key), the others hold [Qundef]; in particular every required
    slot holds the value of its key. *)
Theorem extract_mode_buffer req opt restAllowed h b :
  NoDup (req ++ opt) → proper_values h →
  (∀ k, k ∈ req → has_key h k) →
  length b = (length req + length opt)%nat →
  (restAllowed = false → ∀ key, key ∈ hash_keys h → declared (req ++ opt) key) →
  ∃ b',
    extract req opt restAllowed (Mem (Some h) (Some b))
    = (Ret (Z.of_nat (length req + length (present_keys h opt))),
       Mem (Some (undeclared_entries (req ++ opt) h)) (Some b'))
    ∧ b' = take (length req + length (present_keys h opt))
                (values_of h (req ++ opt))
           ++ replicate (length opt - length (present_keys h opt)) Qundef
    ∧ take (length req) b' = values_of h req
    ∧ Qundef ∉ values_of h req.
Proof.
  intros Hnd Hp Hreq Hb Hrest.
  pose proof (length_filter (has_key h) opt) as Hle.
  fold (present_keys h opt) in Hle.
  rewrite extract_mode_run by done. cbv zeta.
  rewrite final_buffer;
    [| done | by rewrite length_values_of, length_app | lia].
  eexists. split; [reflexivity|]. split; [f_equal; f_equal; lia|].
  split; [|by apply values_of_present].
  rewrite take_app_le by (rewrite length_take, length_values_of, length_app; lia).
  rewrite take_take, Nat.min_l by lia.
  rewrite values_of_app, take_app_le by (rewrite length_values_of; lia).
  apply take_ge. rewrite length_values_of. lia.
Qed.

Lemma extract_mode_buffer_witness :
  ∃ b',
    extract ["name"] ["age"; "city"] true
      (Mem (Some [(Sym "city", Obj 3); (Sym "zip", Obj 4); (Sym "name", Obj 1)])
           (Some [Obj 7; Obj 8; Obj 9]))
    = (Ret (Z.of_nat (length ["name"]
              + length (present_keys
                  [(Sym "city", Obj 3); (Sym "zip", Obj 4); (Sym "name", Obj 1)]
                  ["age"; "city"]))),
       Mem (Some (undeclared_entries (["name"] ++ ["age"; "city"])
                    [(Sym "city", Obj 3); (Sym "zip", Obj 4); (Sym "name", Obj 1)]))
           (Some b'))
    ∧ b' = take (length ["name"]
                 + length (present_keys
                     [(Sym "city", Obj 3); (Sym "zip", Obj 4); (Sym "name", Obj 1)]
                     ["age"; "city"]))
                (values_of
                   [(Sym "city", Obj 3); (Sym "zip", Obj 4); (Sym "name", Obj 1)]
                   (["name"] ++ ["age"; "city"]))
           ++ replicate (length ["age"; "city"]
                         - length (present_keys
                             [(Sym "city", Obj 3); (Sym "zip", Obj 4);
                              (Sym "name", Obj 1)]
                             ["age"; "city"])) Qundef
    ∧ take (length ["name"]) b'
      = values_of [(Sym "city", Obj 3); (Sym "zip", Obj 4); (Sym "name", Obj 1)]
          ["name"]
    ∧ Qundef ∉ values_of
                 [(Sym "city", Obj 3); (Sym "zip", Obj 4); (Sym "name", Obj 1)]
                 ["name"].
Proof.
  apply (extract_mode_buffer ["name"] ["age"; "city"] true
           [(Sym "city", Obj 3); (Sym "zip", Obj 4); (Sym "name", Obj 1)]
           [Obj 7; Obj 8; Obj 9]).
  - compute_done.
  - unfold proper_values. compute_done.
  - intros k ->%list_elem_of_singleton. compute_done.
  - reflexivity.
  - discriminate.
Defined.

(** X12: when the optional keys that are in the mapping come, in the schema,
    before those that are not, a call that returns in extract mode leaves in
    every slot the value of its key, [Qundef] for the absent ones: no value
    is lost, and the count is the number of required and present optional
    keys. *)
Theorem extract_mode_present_prefix req pres abs restAllowed h b :
  NoDup (req ++ pres ++ abs) → proper_values h →
  (∀ k, k ∈ req ++ pres → has_key h k) →
  (∀ k, k ∈ abs → ¬ has_key h k) →
  length b = (length req + length (pres ++ abs))%nat →
  (restAllowed = false →
   ∀ key, key ∈ hash_keys h → declared (req ++ pres ++ abs) key) →
  extract req (pres ++ abs) restAllowed (Mem (Some h) (Some b))
  = (Ret (Z.of_nat (length req + length pres)),
     Mem (Some (undeclared_entries (req ++ pres ++ abs) h))
         (Some (values_of h (req ++ pres ++ abs)))).
Proof.
  intros Hnd Hp Hpres Habs Hb Hrest.
  assert (Hpk : present_keys h (pres ++ abs) = pres).
  { unfold present_keys. rewrite filter_app.
    fold (present_keys h pres). fold (present_keys h abs).
    rewrite present_keys_all, present_keys_none, app_nil_r; [done..|].
    intros k Hk. apply Hpres, elem_of_app. by right. }
  rewrite extract_mode_run;
    [| done | done | intros k Hk; apply Hpres, elem_of_app; by left | done..].
  cbv zeta. rewrite Hpk.
  rewrite final_buffer;
    [| done | by rewrite length_values_of, length_app
     | rewrite length_app; lia].
  f_equal. f_equal. f_equal.
  rewrite (app_assoc req pres abs), (values_of_app h (req ++ pres) abs).
  rewrite take_app_length'
    by (by rewrite length_values_of, length_app).
  rewrite (values_of_absent h abs) by done. f_equal. f_equal.
  rewrite length_app. lia.
Qed.

Lemma extract_mode_present_prefix_witness :
  extract ["name"] (["age"] ++ ["city"]) false
    (Mem (Some [(Sym "age", Obj 2); (Sym "name", Obj 1)]) (Some [Qnil; Qnil; Qnil]))
  = (Ret (Z.of_nat (length ["name"] + length ["age"])),
     Mem (Some (undeclared_entries (["name"] ++ ["age"] ++ ["city"])
                  [(Sym "age", Obj 2); (Sym "name", Obj 1)]))
         (Some (values_of [(Sym "age", Obj 2); (Sym "name", Obj 1)]
                  (["name"] ++ ["age"] ++ ["city"])))).
Proof.
  apply (extract_mode_present_prefix ["name"] ["age"] ["city"] false
           [(Sym "age", Obj 2); (Sym "name", Obj 1)] [Qnil; Qnil; Qnil]).
  - compute_done.
  - unfold proper_values. compute_done.
  - intros k Hk. apply elem_of_cons in Hk as [->|Hk]; [compute_done|].
    apply list_elem_of_singleton in Hk as ->. compute_done.
  - intros k ->%list_elem_of_singleton. compute_done.
  - reflexivity.
  - intros _ key Hkey. apply elem_of_cons in Hkey as [->|Hkey]; [compute_done|].
    apply list_elem_of_singleton in Hkey as ->. compute_done.
Defined.

(** * The null mapping with a required key *)


(** * A negative optional count *)

Lemma optional_pass_run_more req opt more h vals acc :
  NoDup opt → buffer_fits vals (length req + length opt) →
  optional_pass (req ++ opt ++ more) (Z.of_nat (length req))
    (Z.of_nat (length opt)) acc (Mem (Some h) vals)
  = (Ret (acc + specified (values_of h opt)),
     Mem (Some (consumed vals h opt))
         (written (length req) (values_of h opt) <$> vals)).
Proof.
  intros Hnd Hb. unfold optional_pass, bind, NIL_P_keyword_hash. simpl.
  destruct opt as [|k opt].
  - simpl. unfold ret, specified. simpl. rewrite Z.add_0_r. f_equal.
    destruct vals as [b|]; simpl; [|done]. by rewrite written_nil.
  - rewrite (bool_decide_eq_false_2 (Z.of_nat (length (k :: opt)) = 0))
      by (simpl length; lia).
    simpl negb. simpl andb. unfold for_range.
    replace (Z.to_nat (Z.of_nat (length req) + Z.of_nat (length (k :: opt))
                       - Z.of_nat (length req)))
      with (length (k :: opt)) by lia.
    by apply (pass_run (req ++ (k :: opt) ++ more)
                (optional_step (req ++ (k :: opt) ++ more))
                (λ _, True) (λ i key h vals acc Hk Hf _,
                               optional_step_run _ i key h vals acc Hk Hf)
                (k :: opt) req more); [..|apply Forall_forall].
Qed.

Lemma rb_get_kwargs_from_rest_allowed req opt more h vals :
  NoDup (req ++ opt) → buffer_fits vals (length req + length opt) →
  Qundef ∉ values_of h req →
  rb_get_kwargs_from (req ++ opt ++ more) (Z.of_nat (length req)) true
    (Z.of_nat (length opt)) (Mem (Some h) vals)
  = bind (tail_fill (Z.of_nat (length req)) (Z.of_nat (length opt))
            (Z.of_nat (length req) + specified (values_of h opt)))
         (λ _, ret (Z.of_nat (length req) + specified (values_of h opt)))
         (Mem (Some (consumed vals h (req ++ opt)))
              (written 0 (values_of h (req ++ opt)) <$> vals)).
Proof.
  intros Hnd Hb Hv. apply NoDup_app in Hnd as (Hnr & Hdisj & Hno).
  unfold rb_get_kwargs_from. unfold bind at 1.
  rewrite required_pass_found; [| done | eapply buffer_fits_le; [|done]; lia | done].
  unfold bind at 1.
  rewrite optional_pass_run_more;
    [| done | intros b Hvb; destruct vals as [b0|]; [|done]; injection Hvb as <-;
              rewrite length_written
                by (specialize (Hb b0 eq_refl); rewrite length_values_of; lia);
              by apply Hb ].
  rewrite consumed_fmap, consumed_app, values_of_consumed by done.
  assert (Hw : written (length req) (values_of h opt)
                 <$> (written 0 (values_of h req) <$> vals)
               = written 0 (values_of h (req ++ opt)) <$> vals).
  { rewrite values_of_app, <- written_fmap_app
      by (eapply buffer_fits_le; [|done]; lia).
    by rewrite length_values_of. }
  rewrite Hw. unfold bind at 1. by rewrite rest_check_allowed.
Qed.

(** C7, amended: when the [optional] argument is negative, rest keys are
    allowed and the number of optional keywords is the magnitude of the
    argument minus one ([-1 - optional]).  With O that number and a mapping
    that holds every required key: whatever other keys the mapping holds, the
    call raises no fault; it takes the required keys and the O keys of the
    table after them and no key beyond; the mapping keeps every other
    entry. *)
Theorem negative_optional_decoding req opt more h b optional :
  optional < 0 →
  Z.abs optional - 1 = Z.of_nat (length opt) →
  NoDup (req ++ opt) → proper_values h →
  (∀ k, k ∈ req → has_key h k) →
  length b = (length req + length opt)%nat →
  Z.of_nat (length req + length opt) ≤ INT_MAX →
  (∀ table required m,
     rb_get_kwargs table required optional m
     = rb_get_kwargs_from table required true (Z.abs optional - 1) m)
  ∧ rb_get_kwargs (req ++ opt ++ more) (Z.of_nat (length req)) optional
      (Mem (Some h) (Some b))
    = (Ret (Z.of_nat (length req + length (present_keys h opt))),
       Mem (Some (undeclared_entries (req ++ opt) h))
           (Some (take (length req + length (present_keys h opt))
                       (values_of h (req ++ opt))
                  ++ replicate (length opt - length (present_keys h opt))
                       Qundef))).
Proof.
  intros Hneg HO Hnd Hp Hreq Hb Hint.
  split; [intros; by apply rb_get_kwargs_negative|].
  rewrite rb_get_kwargs_negative, HO by done.
  rewrite rb_get_kwargs_from_rest_allowed;
    [| done | intros b0 [= <-]; lia | by apply values_of_present].
  pose proof (length_filter (has_key h) opt) as Hle.
  fold (present_keys h opt) in Hle.
  rewrite specified_values_of by done.
  replace (Z.of_nat (length req) + Z.of_nat (length (present_keys h opt)))
    with (Z.of_nat (length req + length (present_keys h opt))) by lia.
  unfold bind. simpl consumed. simpl fmap. rewrite hash_delete_table.
  assert (Hlw : length (written 0 (values_of h (req ++ opt)) b) = length b).
  { apply length_written. rewrite length_values_of, length_app. lia. }
  rewrite tail_fill_extract by lia.
  rewrite final_buffer;
    [| done | by rewrite length_values_of, length_app | lia].
  unfold ret.
  by replace (length req + length opt
              - (length req + length (present_keys h opt)))%nat
       with (length opt - length (present_keys h opt))%nat by lia.
Qed.

Lemma negative_optional_decoding_witness :
  (∀ table required m,
     rb_get_kwargs table required (-3) m
     = rb_get_kwargs_from table required true (Z.abs (-3) - 1) m)
  ∧ rb_get_kwargs (["name"] ++ ["age"; "city"] ++ ["zip"])
      (Z.of_nat (length ["name"])) (-3)
      (Mem (Some [(Sym "age", Obj 2); (Sym "zip", Obj 4); (Sym "name", Obj 1);
                  (Sym "extra", Obj 5)])
           (Some [Obj 7; Obj 8; Obj 9]))
    = (Ret (Z.of_nat (length ["name"]
              + length (present_keys
                  [(Sym "age", Obj 2); (Sym "zip", Obj 4); (Sym "name", Obj 1);
                   (Sym "extra", Obj 5)]
                  ["age"; "city"]))),
       Mem (Some (undeclared_entries (["name"] ++ ["age"; "city"])
                    [(Sym "age", Obj 2); (Sym "zip", Obj 4); (Sym "name", Obj 1);
                     (Sym "extra", Obj 5)]))
           (Some (take (length ["name"]
                        + length (present_keys
                            [(Sym "age", Obj 2); (Sym "zip", Obj 4);
                             (Sym "name", Obj 1); (Sym "extra", Obj 5)]
                            ["age"; "city"]))
                       (values_of
                          [(Sym "age", Obj 2); (Sym "zip", Obj 4);
                           (Sym "name", Obj 1); (Sym "extra", Obj 5)]
                          (["name"] ++ ["age"; "city"]))
                  ++ replicate (length ["age"; "city"]
                                - length (present_keys
                                    [(Sym "age", Obj 2); (Sym "zip", Obj 4);
                                     (Sym "name", Obj 1); (Sym "extra", Obj 5)]
                                    ["age"; "city"]))
                       Qundef))).
Proof.
  apply (negative_optional_decoding ["name"] ["age"; "city"] ["zip"]
           [(Sym "age", Obj 2); (Sym "zip", Obj 4); (Sym "name", Obj 1);
            (Sym "extra", Obj 5)]
           [Obj 7; Obj 8; Obj 9] (-3)).
  - lia.
  - reflexivity.
  - compute_done.
  - unfold proper_values. compute_done.
  - intros k ->%list_elem_of_singleton. compute_done.
  - reflexivity.
  - unfold INT_MAX. simpl. lia.
Defined.

Example negative_optional_call :
  rb_get_kwargs ["name"; "age"; "city"; "zip"] 1 (-3)
    (Mem (Some [(Sym "age", Obj 2); (Sym "zip", Obj 4); (Sym "name", Obj 1);
                (Sym "extra", Obj 5)])
         (Some [Obj 7; Obj 8; Obj 9]))
  = (Ret 2,
     Mem (Some [(Sym "zip", Obj 4); (Sym "extra", Obj 5)])
         (Some [Obj 1; Obj 2; Qundef])).
Proof. reflexivity. Qed.

(** * The message of every fault *)

(** C8: every fault the call raises carries the message "<missing|unknown>
    keyword<s>: k1, k2, ...": the kind, the word keyword, an s when the key
    list has more than one entry, and, unless the list is empty, a colon and
    the keys joined with a comma in the order of the list.  For a missing
    required key the list is that key alone, the first in schema order
    without a value in the mapping; for unknown keys it is the keys the
    schema does not declare, in the order of the mapping. *)
Theorem keyword_error_message req opt restAllowed h vals e :
  NoDup (req ++ opt) →
  (∀ key, key ∈ hash_keys h → is_symbol key) →
  buffer_fits vals (length req + length opt) →
  (extract req opt restAllowed (Mem (Some h) vals)).1 = Raise e →
  (∀ error names m,
     rb_keyword_error_new error (Sym <$> names) m
     = (Ret (ArgError (keyword_message error names)), m))
  ∧ (∀ error names m,
       rb_keyword_error (A:=Z) error (Sym <$> names) m
       = (Raise (ArgError (keyword_message error names)), m))
  ∧ (∀ error, keyword_message error [] = error +:+ " keyword")
  ∧ (∀ error a, keyword_message error [a] = error +:+ " keyword: " +:+ a)
  ∧ (∀ error a b names',
       keyword_message error (a :: b :: names')
       = error +:+ " keywords: " +:+ a +:+ ", " +:+ join_names (b :: names'))
  ∧ ((∃ pre k post,
        req = pre ++ k :: post
        ∧ (Qundef ∉ values_of h pre)
        ∧ hash_lookup2 h (Sym k) Qundef = Qundef
        ∧ e = ArgError (keyword_message "missing" [k]))
     ∨ (restAllowed = false
        ∧ ∃ names,
            Sym <$> names
            = filter (λ key, ¬ declared (req ++ opt) key) (hash_keys h)
            ∧ hash_keys (undeclared_entries (req ++ opt) h) = Sym <$> names
            ∧ e = ArgError (keyword_message "unknown" names))).
Proof.
  intros Hnd Hsym Hb.
  assert (Hnew : ∀ error names m,
            rb_keyword_error (A:=Z) error (Sym <$> names) m
            = (Raise (ArgError (keyword_message error names)), m)).
  { intros error names m. unfold rb_keyword_error, bind.
    by rewrite rb_keyword_error_new_symbols. }
  intros Hr.
  split; [apply rb_keyword_error_new_symbols|]. split; [done|].
  split; [reflexivity|]. split; [reflexivity|]. split; [reflexivity|].
  revert Hr. unfold extract. rewrite rb_get_kwargs_decode.
  destruct (decide (Qundef ∈ values_of h req)) as [Hu|Hu].
  - destruct (first_undef_split _ _ Hu) as (pre & k & post & -> & Hpre & Hk).
    rewrite rb_get_kwargs_from_undef; [| | | done..].
    + simpl. intros [= <-]. left. by exists pre, k, post.
    + rewrite <- !app_assoc in Hnd. by apply NoDup_app in Hnd as [? _].
    + eapply buffer_fits_le; [|done]. rewrite length_app. simpl. lia.
  - rewrite rb_get_kwargs_from_found by done. cbv zeta.
    destruct restAllowed; simpl negb; simpl andb.
    + by intros ?%tail_fill_returns.
    + destruct (bool_decide _); [|by intros ?%tail_fill_returns].
      assert (Hnames :
                Sym <$> symbol_names (hash_keys (undeclared_entries (req ++ opt) h))
                = hash_keys (undeclared_entries (req ++ opt) h)).
      { apply symbol_names_symbols. intros key Hkey.
        apply undeclared_entries_keys in Hkey as [Hkey _]. auto. }
      intros Hr. right. split; [done|].
      exists (symbol_names (hash_keys (undeclared_entries (req ++ opt) h))).
      split; [by rewrite Hnames, hash_keys_undeclared|]. split; [done|].
      rewrite <- Hnames, Hnew in Hr. by injection Hr as <-.
Qed.

Lemma keyword_error_message_witness :
  (∀ error names m,
     rb_keyword_error_new error (Sym <$> names) m
     = (Ret (ArgError (keyword_message error names)), m))
  ∧ (∀ error names m,
       rb_keyword_error (A:=Z) error (Sym <$> names) m
       = (Raise (ArgError (keyword_message error names)), m))
  ∧ (∀ error, keyword_message error [] = error +:+ " keyword")
  ∧ (∀ error a, keyword_message error [a] = error +:+ " keyword: " +:+ a)
  ∧ (∀ error a b names',
       keyword_message error (a :: b :: names')
       = error +:+ " keywords: " +:+ a +:+ ", " +:+ join_names (b :: names'))
  ∧ ((∃ pre k post,
        ["name"] = pre ++ k :: post
        ∧ (Qundef ∉ values_of
                      [(Sym "zip", Obj 4); (Sym "name", Obj 1); (Sym "extra", Obj 2)]
                      pre)
        ∧ hash_lookup2
            [(Sym "zip", Obj 4); (Sym "name", Obj 1); (Sym "extra", Obj 2)]
            (Sym k) Qundef = Qundef
        ∧ ArgError "unknown keywords: zip, extra"
          = ArgError (keyword_message "missing" [k]))
     ∨ (false = false
        ∧ ∃ names,
            Sym <$> names
            = filter (λ key, ¬ declared (["name"] ++ ["age"]) key)
                (hash_keys
                   [(Sym "zip", Obj 4); (Sym "name", Obj 1); (Sym "extra", Obj 2)])
            ∧ hash_keys (undeclared_entries (["name"] ++ ["age"])
                 [(Sym "zip", Obj 4); (Sym "name", Obj 1); (Sym "extra", Obj 2)])
              = Sym <$> names
            ∧ ArgError "unknown keywords: zip, extra"
              = ArgError (keyword_message "unknown" names))).
Proof.
  apply (keyword_error_message ["name"] ["age"] false
           [(Sym "zip", Obj 4); (Sym "name", Obj 1); (Sym "extra", Obj 2)]
           (Some [Qnil; Qnil])).
  - compute_done.
  - intros key Hkey. repeat (apply elem_of_cons in Hkey as [->|Hkey]; [done|]).
    by apply elem_of_nil in Hkey.
  - intros b [= <-]. simpl. lia.
  - reflexivity.
Defined.

(** * Calls on a schema with its buffer *)

Lemma required_step_count table i acc m a m1 :
  required_step table i acc m = (Ret a, m1) → a = acc + 1.
Proof.
  unfold required_step, bind.
  destruct (table_at table i m) as [[key|?|?] m2]; [|done..].
  destruct (rb_tr_extract_keyword key m2) as [[val|?|?] m3]; [|done..].
  destruct (values_present m3) as [[has|?|?] m4]; [|done..].
  destruct ((if has then store_value i val else ret ()) m4)
    as [[[]|?|?] m5]; [|done..].
  destruct (bool_decide (val = Qundef)).
  - destruct (rb_keyword_error_raises "missing" [Sym key] m5) as [e He].
    by rewrite He.
  - by intros [= <- _].
Qed.

Lemma optional_step_count table i acc m a m1 :
  optional_step table i acc m = (Ret a, m1) → acc ≤ a ≤ acc + 1.
Proof.
  unfold optional_step, bind.
  destruct (table_at table i m) as [[key|?|?] m2]; [|done..].
  destruct (rb_tr_extract_keyword key m2) as [[val|?|?] m3]; [|done..].
  destruct (values_present m3) as [[has|?|?] m4]; [|done..].
  destruct ((if has then store_value i val else ret ()) m4)
    as [[[]|?|?] m5]; [|done..].
  destruct (bool_decide (val ≠ Qundef)); intros [= <- _]; lia.
Qed.

Lemma for_loop_count (body : Z → Z → M Z) :
  (∀ i acc m a m1, body i acc m = (Ret a, m1) → acc ≤ a ≤ acc + 1) →
  ∀ count i acc m a m1,
    for_loop count i body acc m = (Ret a, m1) →
    acc ≤ a ≤ acc + Z.of_nat count.
Proof.
  intros Hbody. induction count as [|count IH]; intros i acc m a m1.
  - intros [= <- _]. lia.
  - simpl for_loop. unfold bind.
    destruct (body i acc m) as [[acc'|?|?] m2] eqn:Hb; [|done..].
    intros Hr. apply IH in Hr. apply Hbody in Hb. lia.
Qed.

Lemma rb_get_kwargs_from_count (R O : nat) table rest m n m' :
  rb_get_kwargs_from table (Z.of_nat R) rest (Z.of_nat O) m = (Ret n, m') →
  0 ≤ n ≤ Z.of_nat (R + O).
Proof.
  unfold rb_get_kwargs_from. unfold bind at 1. unfold required_pass, for_range.
  destruct (for_loop _ 0 (required_step table) 0 m) as [[e1|?|?] m1] eqn:H1;
    [|done..].
  apply for_loop_count in H1;
    [|intros i acc m0 a m2 Hs; apply required_step_count in Hs; lia].
  unfold bind at 1.
  destruct (optional_pass table (Z.of_nat R) (Z.of_nat O) e1 m1)
    as [[e2|?|?] m2] eqn:H2; [|done..].
  assert (He2 : e1 ≤ e2 ≤ e1 + Z.of_nat O).
  { revert H2. unfold optional_pass, bind, NIL_P_keyword_hash.
    destruct (negb _ && negb _).
    - unfold for_range. intros H2.
      apply for_loop_count in H2; [|apply optional_step_count]. lia.
    - intros [= <- _]. lia. }
  unfold bind at 1.
  destruct (rest_check table (Z.of_nat R) rest (Z.of_nat O) e2 m2)
    as [[[]|?|?] m3]; [|done..].
  unfold bind.
  destruct (tail_fill (Z.of_nat R) (Z.of_nat O) e2 m3) as [[[]|?|?] m4]; [|done..].
  intros [= <- _]. lia.
Qed.

(** X2: in probe mode, on a schema of R required and O optional keys with
    R + O an [int], and a mapping that is not null unless R is 0, a call that
    returns has left the mapping as it was and returns R + O, the count of
    all the keys of the schema: the last loop lets no smaller count
    through. *)
Theorem probe_mode_return req opt restAllowed oh n m' :
  Z.of_nat (length req + length opt) ≤ INT_MAX →
  (oh = None → req = []) →
  extract req opt restAllowed (Mem oh None) = (Ret n, m') →
  m' = Mem oh None ∧ n = Z.of_nat (length req + length opt).
Proof.
  intros Hint Hnil Hr.
  pose proof Hr as Hc. unfold extract in Hc.
  rewrite rb_get_kwargs_decode in Hc. apply rb_get_kwargs_from_count in Hc.
  apply return_in_probe_mode in Hr as [-> Hge]. split; [done|].
  unfold optional_argument in Hge.
  destruct restAllowed; [rewrite bool_decide_eq_true_2 in Hge by lia
                        |rewrite bool_decide_eq_false_2 in Hge by lia]; lia.
Qed.

Lemma probe_mode_return_witness :
  Mem (Some [(Sym "age", Obj 2); (Sym "name", Obj 1); (Sym "zip", Obj 3)]) None
  = Mem (Some [(Sym "age", Obj 2); (Sym "name", Obj 1); (Sym "zip", Obj 3)]) None
  ∧ 2 = Z.of_nat (length ["name"] + length ["age"]).
Proof.
  apply (probe_mode_return ["name"] ["age"] true
           (Some [(Sym "age", Obj 2); (Sym "name", Obj 1); (Sym "zip", Obj 3)]) 2).
  - unfold INT_MAX. simpl. lia.
  - discriminate.
  - reflexivity.
Defined.

(** X1: on a schema with unique keys, R + O an [int], a buffer (when there is
    one) with a slot for every key, and a mapping that is not null unless R is
    0, a call, however it ends, leaves a null mapping null and a mapping a
    mapping that only lost entries, the remaining ones in their order; it
    leaves a null buffer null and a buffer at its length, each slot holding
    what it held, [Qundef], or a value taken from the mapping.  The one way
    the call stops without returning or raising is the write of the last loop
    through a null buffer. *)
Theorem rb_get_kwargs_frame req opt restAllowed m :
  NoDup (req ++ opt) →
  buffer_fits (kw_values m) (length req + length opt) →
  Z.of_nat (length req + length opt) ≤ INT_MAX →
  (kw_hash m = None → req = []) →
  frame m (extract req opt restAllowed m).2
  ∧ (∀ f, (extract req opt restAllowed m).1 = Crash f →
       kw_values m = None ∧ ∃ i, f = NullWrite i).
Proof.
  intros Hnd Hb Hint Hnil. split; [apply frame_of_rb_get_kwargs|].
  intros f. unfold extract. rewrite rb_get_kwargs_decode.
  destruct m as [[h|] vals]; simpl in *.
  - destruct (decide (Qundef ∈ values_of h req)) as [Hu|Hu].
    + destruct (first_undef_split _ _ Hu) as (pre & k & post & -> & Hpre & Hk).
      rewrite rb_get_kwargs_from_undef; [done| | |done..].
      * rewrite <- !app_assoc in Hnd. by apply NoDup_app in Hnd as [? _].
      * eapply buffer_fits_le; [|done]. rewrite length_app. simpl. lia.
    + rewrite rb_get_kwargs_from_found by done. cbv zeta.
      destruct (negb restAllowed && bool_decide _).
      * destruct (rb_keyword_error_raises "unknown"
                    (hash_keys (undeclared_entries (req ++ opt) h))
                    (Mem (Some (undeclared_entries (req ++ opt) h))
                         (written 0 (values_of h (req ++ opt)) <$> vals)))
          as [e He].
        by rewrite He.
      * pose proof (specified_bounds (values_of h opt)) as Hs.
        rewrite length_values_of in Hs. unfold bind.
        destruct vals as [b|]; simpl fmap.
        -- specialize (Hb b eq_refl). unfold specified in *.
           rewrite <- Nat2Z.inj_add.
           rewrite tail_fill_extract; [done|lia|].
           rewrite length_written; [done|].
           rewrite length_values_of, length_app. lia.
        -- destruct (decide (Z.of_nat (length req) + specified (values_of h opt)
                             < Z.of_nat (length req) + Z.of_nat (length opt)))
             as [Hlt|Hge].
           ++ rewrite tail_fill_probe_short by done.
              intros [= <-]. split; [done|by eexists].
           ++ by rewrite tail_fill_probe_full by lia.
  - rewrite (Hnil eq_refl). unfold rb_get_kwargs_from, bind. simpl length.
    change (required_pass ([] ++ opt) (Z.of_nat 0) (Mem None vals))
      with (Ret 0, Mem None vals).
    cbv beta iota. rewrite optional_pass_nil.
    cbv beta iota. rewrite rest_check_nil.
    destruct vals as [b|].
    + specialize (Hb b eq_refl). rewrite (Hnil eq_refl) in Hb. simpl in Hb.
      pose proof (tail_fill_extract 0 (length opt) 0 None b) as Hfill.
      change (Z.of_nat 0) with 0 in *. by rewrite Hfill by lia.
    + destruct (decide (0 < 0 + Z.of_nat (length opt))) as [Hlt|Hge].
      * rewrite tail_fill_probe_short by done.
        intros [= <-]. split; [done|by eexists].
      * by rewrite tail_fill_probe_full by lia.
Qed.

Lemma rb_get_kwargs_frame_witness :
  frame (Mem (Some [(Sym "city", Obj 3); (Sym "zip", Obj 4); (Sym "name", Obj 1)])
             (Some [Obj 7; Obj 8; Obj 9]))
    (extract ["name"] ["age"; "city"] true
       (Mem (Some [(Sym "city", Obj 3); (Sym "zip", Obj 4); (Sym "name", Obj 1)])
            (Some [Obj 7; Obj 8; Obj 9]))).2
  ∧ (∀ f, (extract ["name"] ["age"; "city"] true
             (Mem (Some [(Sym "city", Obj 3); (Sym "zip", Obj 4); (Sym "name", Obj 1)])
                  (Some [Obj 7; Obj 8; Obj 9]))).1 = Crash f →
       kw_values
         (Mem (Some [(Sym "city", Obj 3); (Sym "zip", Obj 4); (Sym "name", Obj 1)])
              (Some [Obj 7; Obj 8; Obj 9])) = None
       ∧ ∃ i, f = NullWrite i).
Proof.
  apply (rb_get_kwargs_frame ["name"] ["age"; "city"] true
           (Mem (Some [(Sym "city", Obj 3); (Sym "zip", Obj 4); (Sym "name", Obj 1)])
                (Some [Obj 7; Obj 8; Obj 9]))).
  - compute_done.
  - intros b [= <-]. simpl. lia.
  - unfold INT_MAX. simpl. lia.
  - discriminate.
Defined.
